(** * Disney reviews analyser: aggregation engine, year-average display
      and CSV export

    A shallow embedding of [process.py], of the year-average branch of
    [main.handle_view] and of [exporter.CsvExporter.export].

    Modelling conventions.
    - A Python [str] is a [string]; [str.lower] folds the ASCII letters.
    - A Python [int] is a [Z].
    - A Python [float] is the exact rational it denotes, kept in lowest
      terms ([Qred]), so that equal values are equal terms.  The rounding
      of binary64 arithmetic is not part of the model.
    - A Python [dict] is an association list in insertion order with
      pairwise distinct keys; [d[k] = v] overwrites in place or appends.
    - A raised exception is the [Raise] case of [result]. *)

From Stdlib Require Import List ZArith QArith Qround Bool Ascii String Lia.
From Stdlib Require Import Permutation Sorting.Sorted ListSet.
From Stdlib Require Decimal DecimalString DecimalZ.
Import ListNotations.

Local Open Scope string_scope.
Local Open Scope Z_scope.

(** ** Exceptions *)

Inductive exn : Type :=
| ZeroDivisionError
| ValueError
| CsvError.

Inductive result (A : Type) : Type :=
| Ok (a : A)
| Raise (e : exn).

Arguments Ok {A} a.
Arguments Raise {A} e.

Definition bind {A B : Type} (m : result A) (k : A -> result B) : result B :=
  match m with
  | Ok a => k a
  | Raise e => Raise e
  end.

Notation "x <- m ;; k" := (bind m (fun x => k))
  (at level 61, m at next level, right associativity).

(** ** Strings *)

(** [c.lower()] on one character, ASCII letters only. *)
Definition lower_ascii (c : ascii) : ascii :=
  let n := N_of_ascii c in
  if ((65 <=? n) && (n <=? 90))%N then ascii_of_N (n + 32) else c.

(** [s.lower()] *)
Fixpoint lower (s : string) : string :=
  match s with
  | EmptyString => EmptyString
  | String c s' => String (lower_ascii c) (lower s')
  end.

(** [s.startswith(p)] *)
Fixpoint startswith (s p : string) : bool :=
  match p, s with
  | EmptyString, _ => true
  | String _ _, EmptyString => false
  | String b p', String a s' => Ascii.eqb a b && startswith s' p'
  end.

(** [s.split(sep)] for a one-character separator. *)
Fixpoint split (sep : ascii) (s : string) : list string :=
  match s with
  | EmptyString => [EmptyString]
  | String c s' =>
      if Ascii.eqb c sep then EmptyString :: split sep s'
      else match split sep s' with
           | [] => [String c EmptyString]
           | w :: ws => String c w :: ws
           end
  end.

(** ** Numbers *)

(** A float is read as the rational it denotes. *)
Abbreviation float := Q (only parsing).

(** [sum(v)] over integers. *)
Definition sum (v : list Z) : Z := fold_left Z.add v 0.

(** [len(v)] *)
Definition len {A : Type} (v : list A) : Z := Z.of_nat (List.length v).

(** [a / b] on two integers: true division. *)
Definition truediv (a b : Z) : result float :=
  if b =? 0 then Raise ZeroDivisionError
  else Ok (Qred (Qmake (Z.sgn b * a) (Z.to_pos (Z.abs b)))).

(** [x / n] for a float [x] and an integer [n]. *)
Definition fdiv (x : float) (n : Z) : result float :=
  if n =? 0 then Raise ZeroDivisionError
  else Ok (Qred (x / inject_Z n)).

(** [x + n] for a float [x] and an integer [n]. *)
Definition fadd (x : float) (n : Z) : float := Qred (x + inject_Z n).

(** Nearest integer, ties to the even one. *)
Definition round_half_even (x : Q) : Z :=
  let f := Qfloor x in
  match Qcompare (x - inject_Z f) (1 # 2) with
  | Lt => f
  | Gt => f + 1
  | Eq => if Z.even f then f else f + 1
  end.

(** [round(x, 2)]: the nearest multiple of 1/100 of the rational [x], ties
    to the even one. *)
Definition round2 (x : float) : float :=
  Qred (Qmake (round_half_even (x * inject_Z 100)) 100).

(** ** Dictionaries in insertion order *)

Module Dict.
Section Ops.
Context {V : Type}.

Definition t : Type := list (string * V).

Definition empty : t := [].

(** [d.get(k)] *)
Fixpoint get (d : t) (k : string) : option V :=
  match d with
  | [] => None
  | (k', v) :: d' => if String.eqb k' k then Some v else get d' k
  end.

(** [d.get(k, dflt)] *)
Definition get_default (d : t) (k : string) (dflt : V) : V :=
  match get d k with
  | Some v => v
  | None => dflt
  end.

(** [k in d] *)
Definition contains (d : t) (k : string) : bool :=
  match get d k with
  | Some _ => true
  | None => false
  end.

(** [d[k] = v] *)
Fixpoint set (d : t) (k : string) (v : V) : t :=
  match d with
  | [] => [(k, v)]
  | (k', v') :: d' =>
      if String.eqb k' k then (k', v) :: d' else (k', v') :: set d' k v
  end.

Definition items (d : t) : list (string * V) := d.
Definition keys (d : t) : list string := map fst d.
Definition values (d : t) : list V := map snd d.

(** [dict(pairs)] *)
Definition of_pairs (l : list (string * V)) : t :=
  fold_left (fun d kv => set d (fst kv) (snd kv)) l empty.
End Ops.
Arguments t V : clear implicits.

(** [{k: f(k, v) for k, v in d.items()}] where [f] may raise. *)
Definition comprehension {V W : Type} (f : string -> V -> result W)
    (d : t V) : result (t W) :=
  fold_left
    (fun acc kv =>
       out <- acc ;;
       w <- f (fst kv) (snd kv) ;;
       Ok (set out (fst kv) w))
    (items d) (Ok empty).
End Dict.

(** [collections.Counter(xs)] *)
Definition Counter (xs : list string) : Dict.t Z :=
  fold_left (fun c x => Dict.set c x (Dict.get_default c x 0 + 1)) xs Dict.empty.

(** [stats[k].append(x)] on a [defaultdict(list)]. *)
Definition append_at (stats : Dict.t (list Z)) (k : string) (x : Z)
    : Dict.t (list Z) :=
  Dict.set stats k (Dict.get_default stats k [] ++ [x])%list.

(** ** The record model *)

Record Review : Type := mkReview {
  id : Z;
  rating : Z;
  year_month : string;
  location : string;
  park : string
}.

(** [r.park.lower() == park.lower()] *)
Definition park_matches (p : string) (r : Review) : bool :=
  String.eqb (lower (park r)) (lower p).

(** ** process.py *)

Definition get_reviews_by_park (reviews : list Review) (p : string)
    : list Review :=
  filter (park_matches p) reviews.

Definition avg_rating_by_park_year (reviews : list Review) (p year : string)
    : result (option float) :=
  let ratings :=
    map rating
      (filter (fun r => park_matches p r && startswith (year_month r) year)
         reviews) in
  match ratings with
  | [] => Ok None
  | _ :: _ => a <- truediv (sum ratings) (len ratings) ;; Ok (Some a)
  end.

Definition reviews_count_per_park (reviews : list Review) : Dict.t Z :=
  let c := Counter (map park reviews) in
  Dict.of_pairs (Dict.items c).

(** [sum(v) / len(v)] *)
Definition mean_of (v : list Z) : result float := truediv (sum v) (len v).

Definition avg_rating_per_park (reviews : list Review)
    : result (Dict.t float) :=
  let stats :=
    fold_left (fun stats r => append_at stats (park r) (rating r))
      reviews Dict.empty in
  Dict.comprehension (fun _ v => mean_of v) stats.

(** A stable ascending sort on a float key.  Python's sort is stable and
    the stable ascending arrangement of a list is unique, so insertion
    sort stands for it. *)
Section Sorting.
Context {A : Type} (key : A -> float).

Fixpoint insert (x : A) (l : list A) : list A :=
  match l with
  | [] => [x]
  | y :: l' =>
      if Qle_bool (key x) (key y) then x :: y :: l' else y :: insert x l'
  end.

Definition stable_sort (l : list A) : list A := fold_right insert [] l.

(** [sorted(l, key=key, reverse=reverse)]: with [reverse] the list is
    reversed, sorted ascending and reversed again. *)
Definition sorted (reverse : bool) (l : list A) : list A :=
  if reverse then rev (stable_sort (rev l)) else stable_sort l.
End Sorting.

(** [l[:stop]] *)
Definition slice_to {A : Type} (l : list A) (stop : Z) : list A :=
  if stop <? 0 then firstn (Z.to_nat (len l + stop)) l
  else firstn (Z.to_nat stop) l.

(** The default of the [top] parameter. *)
Definition default_top : Z := 10.

Definition top_locations_for_park (reviews : list Review) (p : string)
    (top : option Z) : result (Dict.t float) :=
  let top := match top with Some n => n | None => default_top end in
  let stats :=
    fold_left
      (fun stats r =>
         if park_matches p r then append_at stats (location r) (rating r)
         else stats)
      reviews Dict.empty in
  avgs <- Dict.comprehension (fun _ v => mean_of v) stats ;;
  Ok (Dict.of_pairs (slice_to (sorted snd true (Dict.items avgs)) top)).

Definition month_map : Dict.t string :=
  [("01", "Jan"); ("02", "Feb"); ("03", "Mar");
   ("04", "Apr"); ("05", "May"); ("06", "Jun");
   ("07", "Jul"); ("08", "Aug"); ("09", "Sep");
   ("10", "Oct"); ("11", "Nov"); ("12", "Dec")].

(** [a, b = parts] *)
Definition unpack2 (parts : list string) : result (string * string) :=
  match parts with
  | [a; b] => Ok (a, b)
  | _ => Raise ValueError
  end.

(** Truth value of a string. *)
Definition truthy_str (s : string) : bool := negb (String.eqb s "").

(** Truth value of a list. *)
Definition truthy_list {A : Type} (l : list A) : bool :=
  match l with
  | [] => false
  | _ :: _ => true
  end.

(** The first loop of [avg_monthly_rating]: one record. *)
Definition monthly_step (p : string) (stats : Dict.t (list Z)) (r : Review)
    : result (Dict.t (list Z)) :=
  if park_matches p r then
    ym <- unpack2 (split "-" (year_month r)) ;;
    match Dict.get month_map (snd ym) with
    | Some month_name =>
        if truthy_str month_name
        then Ok (append_at stats month_name (rating r))
        else Ok stats
    | None => Ok stats
    end
  else Ok stats.

(** The value stored for one month by the second loop. *)
Definition monthly_value (stats : Dict.t (list Z)) (month_name : string)
    : result float :=
  if Dict.contains stats month_name
     && truthy_list (Dict.get_default stats month_name [])
  then mean_of (Dict.get_default stats month_name [])
  else Ok 0%Q.

Definition avg_monthly_rating (reviews : list Review) (p : string)
    : result (Dict.t float) :=
  stats <- fold_left (fun acc r => stats <- acc ;; monthly_step p stats r)
             reviews (Ok Dict.empty) ;;
  fold_left
    (fun acc month_name =>
       ordered <- acc ;;
       v <- monthly_value stats month_name ;;
       Ok (Dict.set ordered month_name v))
    (Dict.values month_map) (Ok Dict.empty).

(** The per-park entry while [park_summary] accumulates: [countries] is
    still the set of locations. *)
Record Acc : Type := mkAcc {
  acc_reviews : Z;
  acc_positive : Z;
  acc_avg : float;
  acc_countries : set string
}.

(** The per-park entry that [park_summary] returns, with its four values in
    the order of the keys "reviews", "positive", "avg", "countries". *)
Record Summary : Type := mkSummary {
  s_reviews : Z;
  s_positive : Z;
  s_avg : float;
  s_countries : Z
}.

(** The factory of the [defaultdict]. *)
Definition new_entry : Acc := mkAcc 0 0 0%Q (empty_set string).

(** The body of the first loop of [park_summary]. *)
Definition summary_step (summ : Dict.t Acc) (r : Review) : Dict.t Acc :=
  let s := Dict.get_default summ (park r) new_entry in
  Dict.set summ (park r)
    (mkAcc (acc_reviews s + 1)
           (acc_positive s + (if 4 <=? rating r then 1 else 0))
           (fadd (acc_avg s) (rating r))
           (set_add string_dec (location r) (acc_countries s))).

(** The body of the second loop of [park_summary].  The quotient is the
    exact one; Python rounds the binary64 quotient, which can fall on the
    other side of a tie of [round] (a mean of exactly 2.675 gives 2.68
    here and 2.67 there). *)
Definition finalize (s : Acc) : result Summary :=
  q <- fdiv (acc_avg s) (acc_reviews s) ;;
  Ok (mkSummary (acc_reviews s) (acc_positive s) (round2 q)
                (len (acc_countries s))).

(** The second loop: every value is replaced in place. *)
Fixpoint finalize_all (summ : Dict.t Acc) : result (Dict.t Summary) :=
  match summ with
  | [] => Ok []
  | (k, s) :: rest =>
      s' <- finalize s ;;
      rest' <- finalize_all rest ;;
      Ok ((k, s') :: rest')
  end.

Definition park_summary (reviews : list Review) : result (Dict.t Summary) :=
  let summ := fold_left summary_step reviews Dict.empty in
  finalize_all summ.

(** [needle in hay] on two strings. *)
Fixpoint str_in (needle hay : string) : bool :=
  startswith hay needle
  || match hay with
     | EmptyString => false
     | String _ hay' => str_in needle hay'
     end.

Definition count_reviews_by_park_and_location (reviews : list Review)
    (p loc : string) : Z :=
  sum (map (fun _ => 1)
         (filter
            (fun r =>
               park_matches p r && str_in (lower loc) (lower (location r)))
            reviews)).

(** [tmp[r.park][r.location].append(r.rating)] on the nested
    [defaultdict]. *)
Definition nested_step (tmp : Dict.t (Dict.t (list Z))) (r : Review)
    : Dict.t (Dict.t (list Z)) :=
  let inner := Dict.get_default tmp (park r) Dict.empty in
  Dict.set tmp (park r) (append_at inner (location r) (rating r)).

Definition avg_rating_per_park_location (reviews : list Review)
    : result (Dict.t (Dict.t float)) :=
  let tmp := fold_left nested_step reviews Dict.empty in
  Dict.comprehension
    (fun _ inner => Dict.comprehension (fun _ v => mean_of v) inner)
    tmp.

(** ** main.py: the annual-average branch of [handle_view] *)

(** What [tui.show_msg] is given.  The f-string of the average keeps its
    three arguments; the two-decimal formatting is left to the display. *)
Inductive message : Type :=
| Msg (text : string)
| Msg_average (p year : string) (avg : float)
| Msg_error (e : exn).

(** Truth value of a float. *)
Definition truthy_float (x : float) : bool := negb (Qeq_bool x 0).

(** [f"Average for {park} in {year}: {avg:.2f}" if avg else "No data."] *)
Definition average_message (p year : string) (avg : option float) : message :=
  match avg with
  | Some x => if truthy_float x then Msg_average p year x else Msg "No data."
  | None => Msg "No data."
  end.

Definition is_digit (c : ascii) : bool :=
  let n := N_of_ascii c in ((48 <=? n) && (n <=? 57))%N.

(** [s.isdigit()] *)
Definition isdigit (s : string) : bool :=
  truthy_str s && forallb is_digit (list_ascii_of_string s).

(** Option "3" of [handle_view] for the two answers of the user. *)
Definition view_annual_average (reviews : list Review) (p year : string)
    : message :=
  if negb (truthy_str p) || negb (truthy_str year)
  then Msg "Park and year cannot be empty."
  else if negb (isdigit year) || negb (Nat.eqb (String.length year) 4)
  then Msg "Year must be in YYYY format."
  else match avg_rating_by_park_year reviews p year with
       | Ok avg => average_message p year avg
       | Raise e => Msg_error e
       end.

(** ** main.py: two branches of [handle_graph] *)

(** What a branch of [handle_graph] does: a message, the message of the
    [except] clause, or a call of a chart function of [visual]. *)
Inductive graph_event : Type :=
| Graph_msg (text : string)
| Graph_error (e : exn)
| Bar_top_locations (data : Dict.t float) (p : string)
| Bar_monthly_rating (data : Dict.t float) (p : string).

(** Option "3" of [handle_graph] for the answer of the user. *)
Definition graph_top_locations (reviews : list Review) (p : string)
    : graph_event :=
  if negb (truthy_str p) then Graph_msg "Park cannot be empty."
  else match top_locations_for_park reviews p None with
       | Ok data => Bar_top_locations data p
       | Raise e => Graph_error e
       end.

(** Option "4" of [handle_graph] for the answer of the user. *)
Definition graph_monthly_rating (reviews : list Review) (p : string)
    : graph_event :=
  if negb (truthy_str p) then Graph_msg "Park cannot be empty."
  else match avg_monthly_rating reviews p with
       | Ok data => Bar_monthly_rating data p
       | Raise e => Graph_error e
       end.

(** ** exporter.py: the CSV exporter, and the reader of the [csv] module *)

Module Csv.
Definition delimiter : ascii := ","%char.
Definition quotechar : ascii := "034"%char.
Definition CR : ascii := "013"%char.
Definition LF : ascii := "010"%char.
Definition lineterminator : string := String CR (String LF EmptyString).

(** A cell handed to the writer. *)
Inductive value : Type :=
| VStr (s : string)
| VInt (z : Z)
| VFloat (x : float).

(** [str(z)] *)
Definition str_int (z : Z) : string :=
  DecimalString.NilZero.string_of_int (Z.to_int z).

(** [int(s)] on the output of [str]. *)
Definition int_of_str (s : string) : option Z :=
  option_map Z.of_int (DecimalString.NilZero.int_of_string s).

(** [repr(x)] of a float with at most two decimals, as [round(_, 2)]
    returns them: sign, integer part, point, one or two decimals. *)
Definition repr_float (x : float) : string :=
  let k := round_half_even (x * inject_Z 100) in
  let a := Z.abs k in
  let frac := a mod 100 in
  let sign := if k <? 0 then "-" else EmptyString in
  let last := if frac mod 10 =? 0 then EmptyString
              else str_int (frac mod 10) in
  (sign ++ str_int (a / 100) ++ "." ++ str_int (frac / 10) ++ last)%string.

Definition str (v : value) : string :=
  match v with
  | VStr s => s
  | VInt z => str_int z
  | VFloat x => repr_float x
  end.

(** *** The writer (excel dialect, minimal quoting) *)

(** A character that forces the field into quotes. *)
Definition special (c : ascii) : bool :=
  Ascii.eqb c delimiter || Ascii.eqb c quotechar
  || Ascii.eqb c CR || Ascii.eqb c LF.

Fixpoint needs_quotes (s : string) : bool :=
  match s with
  | EmptyString => false
  | String c s' => special c || needs_quotes s'
  end.

(** Every quote character is doubled. *)
Fixpoint escape (s : string) : string :=
  match s with
  | EmptyString => EmptyString
  | String c s' =>
      if Ascii.eqb c quotechar then String c (String c (escape s'))
      else String c (escape s')
  end.

Definition write_field (s : string) : string :=
  if needs_quotes s
  then (String quotechar (escape s) ++ String quotechar EmptyString)%string
  else s.

Fixpoint join (fields : list string) : string :=
  match fields with
  | [] => EmptyString
  | [f] => f
  | f :: rest => (f ++ String delimiter (join rest))%string
  end.

(** [writer.writerow(row)]: the text added to the file.  A row made of
    one empty field is written as a pair of quotes. *)
Definition writerow (row : list value) : string :=
  let rec := join (map (fun v => write_field (str v)) row) in
  match row, rec with
  | _ :: _, EmptyString =>
      (String quotechar (String quotechar EmptyString) ++ lineterminator)%string
  | _, _ => (rec ++ lineterminator)%string
  end.

(** *** The reader (excel dialect) *)

Inductive state : Type :=
| START_RECORD
| START_FIELD
| IN_FIELD
| IN_QUOTED_FIELD
| QUOTE_IN_QUOTED_FIELD
| EAT_CRNL.

Record reader : Type := mkReader {
  st : state;
  field : string;
  fields : list string
}.

Definition parse_reset : reader := mkReader START_RECORD EmptyString [].

Definition parse_add_char (p : reader) (c : ascii) : reader :=
  mkReader (st p) (field p ++ String c EmptyString)%string (fields p).

Definition parse_save_field (p : reader) : reader :=
  mkReader (st p) EmptyString (fields p ++ [field p])%list.

Definition goto (s : state) (p : reader) : reader :=
  mkReader s (field p) (fields p).

Definition is_newline (c : ascii) : bool := Ascii.eqb c LF || Ascii.eqb c CR.

(** One step of the reader; [None] is the end-of-line mark. *)
Definition parse_process_char (p : reader) (c : option ascii)
    : result reader :=
  let start_field (p : reader) :=
    match c with
    | None => goto START_RECORD (parse_save_field p)
    | Some a =>
        if is_newline a then goto EAT_CRNL (parse_save_field p)
        else if Ascii.eqb a quotechar then goto IN_QUOTED_FIELD p
        else if Ascii.eqb a delimiter then parse_save_field p
        else goto IN_FIELD (parse_add_char p a)
    end in
  match st p with
  | START_RECORD =>
      match c with
      | None => Ok p
      | Some a =>
          if is_newline a then Ok (goto EAT_CRNL p)
          else Ok (start_field (goto START_FIELD p))
      end
  | START_FIELD => Ok (start_field p)
  | IN_FIELD =>
      match c with
      | None => Ok (goto START_RECORD (parse_save_field p))
      | Some a =>
          if is_newline a then Ok (goto EAT_CRNL (parse_save_field p))
          else if Ascii.eqb a delimiter
          then Ok (goto START_FIELD (parse_save_field p))
          else Ok (parse_add_char p a)
      end
  | IN_QUOTED_FIELD =>
      match c with
      | None => Ok p
      | Some a =>
          if Ascii.eqb a quotechar then Ok (goto QUOTE_IN_QUOTED_FIELD p)
          else Ok (parse_add_char p a)
      end
  | QUOTE_IN_QUOTED_FIELD =>
      match c with
      | None => Ok (goto START_RECORD (parse_save_field p))
      | Some a =>
          if Ascii.eqb a quotechar
          then Ok (goto IN_QUOTED_FIELD (parse_add_char p a))
          else if Ascii.eqb a delimiter
          then Ok (goto START_FIELD (parse_save_field p))
          else if is_newline a then Ok (goto EAT_CRNL (parse_save_field p))
          else Ok (goto IN_FIELD (parse_add_char p a))
      end
  | EAT_CRNL =>
      match c with
      | None => Ok (goto START_RECORD p)
      | Some a => if is_newline a then Ok p else Raise CsvError
      end
  end.

(** Does a line of the file end after [c], given the text that follows?
    The file is opened with [newline=""]: a line ends after LF, and
    after a CR that no LF follows. *)
Definition ends_line (c : ascii) (rest : string) : bool :=
  Ascii.eqb c LF
  || (Ascii.eqb c CR
      && match rest with
         | String c' _ => negb (Ascii.eqb c' LF)
         | EmptyString => true
         end).

(** [list(csv.reader(fp))] on the text of the file: the characters of
    each line go through [parse_process_char], the end-of-line mark
    follows each line, and a row is complete when the mark leaves the
    reader in [START_RECORD]. *)
Fixpoint read_from (p : reader) (started : bool) (text : string)
    : result (list (list string)) :=
  match text with
  | EmptyString =>
      if started then
        (* the last line has no line ending *)
        p' <- parse_process_char p None ;;
        match st p' with
        | START_RECORD => Ok [fields p']
        | _ =>
            if negb (String.eqb (field p') EmptyString)
               || match st p' with IN_QUOTED_FIELD => true | _ => false end
            then Ok [fields (parse_save_field p')]
            else Ok []
        end
      else
        if negb (String.eqb (field p) EmptyString)
           || match st p with IN_QUOTED_FIELD => true | _ => false end
        then Ok [fields (parse_save_field p)]
        else Ok []
  | String c rest =>
      p1 <- parse_process_char p (Some c) ;;
      if ends_line c rest then
        p2 <- parse_process_char p1 None ;;
        match st p2 with
        | START_RECORD =>
            rows <- read_from parse_reset false rest ;;
            Ok (fields p2 :: rows)
        | _ => read_from p2 false rest
        end
      else read_from p1 true rest
  end.

Definition reader_rows (text : string) : result (list (list string)) :=
  read_from parse_reset false text.
End Csv.

Module CsvExporter.
Definition header : list string :=
  ["Park"; "reviews"; "positive"; "avg"; "countries"].

(** [list(data.values())] *)
Definition values (data : Summary) : list Csv.value :=
  [Csv.VInt (s_reviews data); Csv.VInt (s_positive data);
   Csv.VFloat (s_avg data); Csv.VInt (s_countries data)].

(** The text that [export] writes to the file. *)
Definition export (summary : Dict.t Summary) : string :=
  fold_left
    (fun fp kv =>
       (fp ++ Csv.writerow (Csv.VStr (fst kv) :: values (snd kv)))%string)
    (Dict.items summary)
    (Csv.writerow (map Csv.VStr header)).
End CsvExporter.

Module TxtExporter.
Definition newline : string := String Csv.LF EmptyString.

(** [data.items()] *)
Definition items (data : Summary) : list (string * Csv.value) :=
  [("reviews", Csv.VInt (s_reviews data));
   ("positive", Csv.VInt (s_positive data));
   ("avg", Csv.VFloat (s_avg data));
   ("countries", Csv.VInt (s_countries data))].

(** The text that [export] writes to the file. *)
Definition export (summary : Dict.t Summary) : string :=
  fold_left
    (fun fp kv =>
       let fp := (fp ++ fst kv ++ newline)%string in
       let fp :=
         fold_left
           (fun fp kv' =>
              (fp ++ "  " ++ fst kv' ++ ": " ++ Csv.str (snd kv')
               ++ newline)%string)
           (items (snd kv)) fp in
       (fp ++ newline)%string)
    (Dict.items summary) EmptyString.
End TxtExporter.

(** Re-parsing an exported summary: the rows after the header, the three
    integer columns read back with [int], the [avg] column kept as text. *)
Definition parse_row (row : list string)
    : option (string * Z * Z * string * Z) :=
  match row with
  | [p; r; pos; a; c] =>
      match Csv.int_of_str r, Csv.int_of_str pos, Csv.int_of_str c with
      | Some r', Some pos', Some c' => Some (p, r', pos', a, c')
      | _, _, _ => None
      end
  | _ => None
  end.

Fixpoint parse_rows (rows : list (list string))
    : option (list (string * Z * Z * string * Z)) :=
  match rows with
  | [] => Some []
  | row :: rest =>
      match parse_row row, parse_rows rest with
      | Some t, Some ts => Some (t :: ts)
      | _, _ => None
      end
  end.

Definition reparse (text : string)
    : option (list (string * Z * Z * string * Z)) :=
  match Csv.reader_rows text with
  | Ok (hd :: rows) =>
      if list_eq_dec string_dec hd CsvExporter.header then parse_rows rows
      else None
  | _ => None
  end.

(** The tuples of the in-memory summary, [avg] as the writer prints it. *)
Definition summary_tuples (summary : Dict.t Summary)
    : list (string * Z * Z * string * Z) :=
  map (fun kv =>
         (fst kv, s_reviews (snd kv), s_positive (snd kv),
          Csv.repr_float (s_avg (snd kv)), s_countries (snd kv)))
    (Dict.items summary).

(** ** Notions used to state the properties *)

(** The value of [sum(v) / len(v)] for a non-empty [v]. *)
Definition mean (v : list Z) : Q := Qred (Qmake (sum v) (Z.to_pos (len v))).

(** The distinct elements of a list, in the order of their first
    occurrence. *)
Fixpoint first_seen (l : list string) : list string :=
  match l with
  | [] => []
  | x :: l' => x :: filter (fun y => negb (String.eqb y x)) (first_seen l')
  end.

(** The general shape of the grouping loops: the entry of [key x] is
    replaced by [f] of the old entry, or of [init] when the key is new. *)
Definition group_step {X V : Type} (key : X -> string) (f : V -> X -> V)
    (init : V) (d : Dict.t V) (x : X) : Dict.t V :=
  Dict.set d (key x) (f (Dict.get_default d (key x) init) x).

(** The elements of a group. *)
Definition group_of {X : Type} (key : X -> string) (k : string) (l : list X)
    : list X :=
  filter (fun x => String.eqb (key x) k) l.

(** What one record does to the entry of its park in [park_summary]. *)
Definition acc_update (s : Acc) (r : Review) : Acc :=
  mkAcc (acc_reviews s + 1)
        (acc_positive s + (if 4 <=? rating r then 1 else 0))
        (fadd (acc_avg s) (rating r))
        (set_add string_dec (location r) (acc_countries s)).

(** What the second loop of [park_summary] makes of an entry whose count
    is not zero. *)
Definition finalized (s : Acc) : Summary :=
  mkSummary (acc_reviews s) (acc_positive s)
            (round2 (Qred (acc_avg s / inject_Z (acc_reviews s))))
            (len (acc_countries s)).

(** The average rating of every location among the records of a park, the
    locations in the order in which the records of the park first show
    them. *)
Definition location_averages (reviews : list Review) (p : string)
    : list (string * Q) :=
  let of_park := get_reviews_by_park reviews p in
  map (fun loc => (loc, mean (map rating (group_of location loc of_park))))
    (first_seen (map location of_park)).

(** A record matches a park and a year: same park up to case, and a
    period that begins with the year. *)
Definition Matches (p year : string) (r : Review) : Prop :=
  lower (park r) = lower p
  /\ exists rest, year_month r = (year ++ rest)%string.

Definition matchesb (p year : string) (r : Review) : bool :=
  park_matches p r && startswith (year_month r) year.

(** [m] is the arithmetic mean of the non-empty list [v]. *)
Definition is_mean (m : Q) (v : list Z) : Prop :=
  v <> [] /\ (m * inject_Z (len v) == inject_Z (sum v))%Q.

(** [l1] is an initial segment of [l2]. *)
Definition prefix_of {A : Type} (l1 l2 : list A) : Prop :=
  exists rest, l2 = (l1 ++ rest)%list.

(** The states in which the text of a field leaves the reader. *)
Definition field_read (s0 s1 : Csv.state) : Prop :=
  s1 = Csv.IN_FIELD \/ s1 = Csv.QUOTE_IN_QUOTED_FIELD \/ s1 = s0.

(** The row of a park in the exported file. *)
Definition summary_row (kv : string * Summary) : list Csv.value :=
  Csv.VStr (fst kv) :: CsvExporter.values (snd kv).

(** The month name of a record whose period splits in two at the dash and
    ends in a known month code. *)
Definition month_of (r : Review) : option string :=
  match split "-" (year_month r) with
  | [_; code] => Dict.get month_map code
  | _ => None
  end.

(** The period of a record splits in exactly two parts at the dash. *)
Definition well_split (r : Review) : Prop :=
  exists a b, split "-" (year_month r) = [a; b].

(** The records of a park that fall in a month. *)
Definition in_month (p month_name : string) (r : Review) : bool :=
  park_matches p r
  && match month_of r with
     | Some name => String.eqb name month_name
     | None => false
     end.

(** The value of a month: the mean of its ratings, and 0 without any. *)
Definition month_value (reviews : list Review) (p month_name : string) : Q :=
  match map rating (filter (in_month p month_name) reviews) with
  | [] => 0%Q
  | v => mean v
  end.

Definition month_names : list string :=
  ["Jan"; "Feb"; "Mar"; "Apr"; "May"; "Jun";
   "Jul"; "Aug"; "Sep"; "Oct"; "Nov"; "Dec"].

(** [needle] occurs inside [hay]. *)
Definition occurs_in (needle hay : string) : Prop :=
  exists pre post, hay = (pre ++ needle ++ post)%string.

(** The averages by park and by location: the parks in the order of their
    first record, and under each park its locations in the order of their
    first record of that park, each with the mean of the ratings of the
    records of exactly that park and that location. *)
Definition location_table (reviews : list Review)
    : list (string * list (string * Q)) :=
  map (fun p =>
         let of_park := group_of park p reviews in
         (p, map (fun loc =>
                    (loc, mean (map rating (group_of location loc of_park))))
               (first_seen (map location of_park))))
    (first_seen (map park reviews)).

(** The six lines of a park in the text export. *)
Definition txt_block (kv : string * Summary) : list string :=
  [fst kv;
   "  reviews: " ++ Csv.str_int (s_reviews (snd kv));
   "  positive: " ++ Csv.str_int (s_positive (snd kv));
   "  avg: " ++ Csv.repr_float (s_avg (snd kv));
   "  countries: " ++ Csv.str_int (s_countries (snd kv));
   EmptyString]%string.

(** A string without a line feed. *)
Fixpoint no_newline (s : string) : bool :=
  match s with
  | EmptyString => true
  | String c s' => negb (Ascii.eqb c Csv.LF) && no_newline s'
  end.

(** The text of some lines, each followed by a line feed. *)
Definition unlines (ls : list string) : string :=
  fold_right (fun l text => (l ++ TxtExporter.newline ++ text)%string)
    EmptyString ls.

(** The test data of [tests/test_process.py]. *)
Definition SAMPLE_REVIEWS : list Review :=
  [mkReview 1 5 "2019-01" "Brazil" "Disneyland Paris";
   mkReview 2 4 "2019-01" "USA" "Disneyland Paris";
   mkReview 3 3 "2019-02" "France" "Disneyland Paris";
   mkReview 4 5 "2020-01" "Brazil" "Disney World Orlando";
   mkReview 5 4 "2020-01" "USA" "Disney World Orlando"].

(** * Properties *)

(** ** Lists and sums *)

Lemma sum_from (v : list Z) (a : Z) : fold_left Z.add v a = a + sum v.
Proof.
  unfold sum. revert a.
  induction v as [|x v IH]; intros a; simpl.
  - lia.
  - rewrite IH, (IH x). lia.
Qed.

Lemma sum_cons (x : Z) (v : list Z) : sum (x :: v) = x + sum v.
Proof. unfold sum at 1. simpl. apply sum_from. Qed.

Lemma sum_app (u v : list Z) : sum (u ++ v) = sum u + sum v.
Proof.
  unfold sum at 1. rewrite fold_left_app. rewrite sum_from.
  reflexivity.
Qed.

Lemma len_cons {A : Type} (x : A) (l : list A) : len (x :: l) = len l + 1.
Proof. unfold len. simpl List.length. lia. Qed.

Lemma len_app {A : Type} (u v : list A) : len (u ++ v) = len u + len v.
Proof. unfold len. rewrite length_app. lia. Qed.

Lemma len_nonneg {A : Type} (l : list A) : 0 <= len l.
Proof. unfold len. lia. Qed.

Lemma filter_filter {A : Type} (f g : A -> bool) (l : list A) :
  filter f (filter g l) = filter (fun x => f x && g x) l.
Proof.
  induction l as [|x l IH]; simpl; [reflexivity|].
  destruct (g x); simpl.
  - destruct (f x); simpl; now rewrite IH.
  - rewrite andb_false_r. exact IH.
Qed.

Lemma filter_all_true {A : Type} (f : A -> bool) (l : list A) :
  (forall x, f x = true) -> filter f l = l.
Proof.
  intros H. induction l as [|x l IH]; simpl; [reflexivity|].
  now rewrite H, IH.
Qed.

Lemma fold_left_filter {A B : Type} (keep : B -> bool) (g : A -> B -> A)
    (l : list B) (a : A) :
  fold_left (fun acc x => if keep x then g acc x else acc) l a
  = fold_left g (filter keep l) a.
Proof.
  revert a. induction l as [|x l IH]; intros a; simpl; [reflexivity|].
  destruct (keep x); simpl; apply IH.
Qed.

(** ** Strings *)

Lemma startswith_spec (s p : string) :
  startswith s p = true <-> exists rest, s = (p ++ rest)%string.
Proof.
  revert s. induction p as [|b p IH]; intros s; simpl.
  - split; [intros _; now exists s | intros _; now destruct s].
  - destruct s as [|a s].
    + simpl. split; [discriminate | intros [rest H]; discriminate].
    + simpl. rewrite andb_true_iff, IH. split.
      * intros [Hab [rest ->]]. apply Ascii.eqb_eq in Hab. subst.
        now exists rest.
      * intros [rest H]. injection H as -> ->. split.
        -- apply Ascii.eqb_refl.
        -- now exists rest.
Qed.

Lemma park_matches_spec (p : string) (r : Review) :
  park_matches p r = true <-> lower (park r) = lower p.
Proof. unfold park_matches. apply String.eqb_eq. Qed.

Lemma matchesb_spec (p year : string) (r : Review) :
  matchesb p year r = true <-> Matches p year r.
Proof.
  unfold matchesb, Matches.
  rewrite andb_true_iff, park_matches_spec, startswith_spec. reflexivity.
Qed.

(** ** First occurrences *)

Lemma first_seen_In (l : list string) (k : string) :
  In k (first_seen l) <-> In k l.
Proof.
  induction l as [|x l IH]; simpl; [reflexivity|].
  rewrite filter_In, IH, negb_true_iff, String.eqb_neq.
  destruct (string_dec x k) as [->|Hne]; [tauto|].
  split; [tauto|]. intros [H|H]; [contradiction|].
  right. split; [exact H|]. congruence.
Qed.

Lemma first_seen_NoDup (l : list string) : NoDup (first_seen l).
Proof.
  induction l as [|x l IH]; simpl; constructor.
  - rewrite filter_In, negb_true_iff, String.eqb_neq. tauto.
  - now apply NoDup_filter.
Qed.

(** ** Dictionaries *)

Section DictFacts.
Context {V : Type}.
Implicit Types (d : Dict.t V) (k : string) (v : V).

Lemma get_none d k : Dict.get d k = None <-> ~ In k (Dict.keys d).
Proof.
  induction d as [|[k' v'] d IH]; simpl.
  - tauto.
  - destruct (String.eqb_spec k' k) as [->|Hne].
    + split; [discriminate | tauto].
    + rewrite IH. tauto.
Qed.

Lemma get_some_in d k v : Dict.get d k = Some v -> In (k, v) d.
Proof.
  induction d as [|[k' v'] d IH]; simpl; [discriminate|].
  destruct (String.eqb_spec k' k) as [->|Hne].
  - intros [= ->]. now left.
  - intros H. right. now apply IH.
Qed.

Lemma in_get d k v :
  NoDup (Dict.keys d) -> In (k, v) d -> Dict.get d k = Some v.
Proof.
  induction d as [|[k' v'] d IH]; simpl; [tauto|].
  intros Hnd [H|H].
  - injection H as -> ->. now rewrite String.eqb_refl.
  - inversion Hnd as [|? ? Hnotin Hnd']; subst.
    destruct (String.eqb_spec k' k) as [->|Hne].
    + exfalso. apply Hnotin. change k with (fst (k, v)).
      now apply in_map.
    + now apply IH.
Qed.

Lemma contains_In d k : Dict.contains d k = true <-> In k (Dict.keys d).
Proof.
  unfold Dict.contains. destruct (Dict.get d k) eqn:E.
  - split; [intros _ | reflexivity].
    apply get_some_in in E. change k with (fst (k, v)). now apply in_map.
  - apply get_none in E. split; [discriminate | contradiction].
Qed.

Lemma get_set_same d k v : Dict.get (Dict.set d k v) k = Some v.
Proof.
  induction d as [|[k' v'] d IH]; simpl.
  - now rewrite String.eqb_refl.
  - destruct (String.eqb_spec k' k) as [->|Hne]; simpl.
    + now rewrite String.eqb_refl.
    + apply String.eqb_neq in Hne. now rewrite Hne.
Qed.

Lemma get_set_other d k k' v :
  k <> k' -> Dict.get (Dict.set d k v) k' = Dict.get d k'.
Proof.
  intros Hkk'. induction d as [|[k0 v0] d IH]; simpl.
  - apply String.eqb_neq in Hkk'. now rewrite Hkk'.
  - destruct (String.eqb_spec k0 k) as [->|Hne]; simpl.
    + apply String.eqb_neq in Hkk'. now rewrite Hkk'.
    + now rewrite IH.
Qed.

Lemma get_default_set_same d k v dflt :
  Dict.get_default (Dict.set d k v) k dflt = v.
Proof. unfold Dict.get_default. now rewrite get_set_same. Qed.

Lemma get_default_set_other d k k' v dflt :
  k <> k' ->
  Dict.get_default (Dict.set d k v) k' dflt = Dict.get_default d k' dflt.
Proof. intros H. unfold Dict.get_default. now rewrite get_set_other. Qed.

Lemma set_fresh d k v :
  Dict.get d k = None -> Dict.set d k v = (d ++ [(k, v)])%list.
Proof.
  induction d as [|[k' v'] d IH]; simpl; [reflexivity|].
  destruct (String.eqb k' k); [discriminate|].
  intros H. now rewrite IH.
Qed.

Lemma keys_set_present d k v :
  Dict.contains d k = true -> Dict.keys (Dict.set d k v) = Dict.keys d.
Proof.
  unfold Dict.contains.
  induction d as [|[k' v'] d IH]; simpl; [discriminate|].
  destruct (String.eqb k' k); simpl; [reflexivity|].
  intros H. f_equal. now apply IH.
Qed.

Lemma keys_set_absent d k v :
  Dict.contains d k = false ->
  Dict.keys (Dict.set d k v) = (Dict.keys d ++ [k])%list.
Proof.
  unfold Dict.contains. intros H.
  rewrite set_fresh by (now destruct (Dict.get d k)).
  unfold Dict.keys. now rewrite map_app.
Qed.

Lemma in_set d k v k' v' :
  In (k', v') (Dict.set d k v) -> (k' = k /\ v' = v) \/ In (k', v') d.
Proof.
  induction d as [|[k0 v0] d IH]; simpl.
  - intros [[= <- <-]|[]]. now left.
  - destruct (String.eqb_spec k0 k) as [->|Hne]; simpl.
    + intros [[= <- <-]|H]; [now left | now right; right].
    + intros [H|H]; [now right; left|].
      destruct (IH H) as [?|?]; [now left | now right; right].
Qed.

Lemma keys_set_NoDup d k v :
  NoDup (Dict.keys d) -> NoDup (Dict.keys (Dict.set d k v)).
Proof.
  intros Hnd. destruct (Dict.contains d k) eqn:E.
  - now rewrite keys_set_present.
  - rewrite keys_set_absent by exact E.
    apply NoDup_app; [exact Hnd | repeat constructor; simpl; tauto |].
    intros x Hx [<-|[]].
    apply contains_In in Hx. congruence.
Qed.

Lemma of_pairs_from (l : list (string * V)) d :
  NoDup (Dict.keys d ++ Dict.keys l) ->
  fold_left (fun d kv => Dict.set d (fst kv) (snd kv)) l d = (d ++ l)%list.
Proof.
  revert d. induction l as [|[k v] l IH]; intros d Hnd; simpl.
  - now rewrite app_nil_r.
  - rewrite set_fresh.
    + rewrite IH.
      * now rewrite <- app_assoc.
      * unfold Dict.keys in *. rewrite map_app, <- app_assoc. exact Hnd.
    + apply get_none. intros Hin.
      apply NoDup_remove_2 in Hnd. apply Hnd.
      apply in_or_app. now left.
Qed.

(** [dict(d.items())] is a copy of [d]. *)
Lemma of_pairs_id d : NoDup (Dict.keys d) -> Dict.of_pairs d = d.
Proof.
  intros Hnd. unfold Dict.of_pairs, Dict.empty.
  now rewrite of_pairs_from.
Qed.
End DictFacts.

(** ** The grouping loops *)

Section Grouping.
Context {X V : Type} (key : X -> string) (f : V -> X -> V) (init : V).

Let step := group_step key f init.

Lemma group_get (l : list X) (d : Dict.t V) (k : string) :
  Dict.get (fold_left step l d) k =
  match group_of key k l with
  | [] => Dict.get d k
  | g => Some (fold_left f g (Dict.get_default d k init))
  end.
Proof.
  revert d. induction l as [|x l IH]; intros d; simpl; [reflexivity|].
  rewrite IH. unfold step at 1 2, group_step.
  destruct (String.eqb_spec (key x) k) as [->|Hne].
  - rewrite get_default_set_same, get_set_same.
    destruct (group_of key k l); simpl; reflexivity.
  - rewrite get_default_set_other, get_set_other by exact Hne.
    reflexivity.
Qed.

Lemma group_keys (l : list X) (d : Dict.t V) :
  Dict.keys (fold_left step l d) =
  (Dict.keys d
   ++ filter (fun y => negb (Dict.contains d y)) (first_seen (map key l)))%list.
Proof.
  revert d. induction l as [|x l IH]; intros d; simpl.
  - now rewrite app_nil_r.
  - rewrite IH. fold (step d x).
    assert (Hs : step d x = Dict.set d (key x) (f (Dict.get_default d (key x) init) x))
      by reflexivity.
    rewrite Hs. clear Hs.
    set (v := f _ x). destruct (Dict.contains d (key x)) eqn:E; simpl.
    + rewrite keys_set_present by exact E. f_equal.
      rewrite filter_filter. apply filter_ext_in. intros y _.
      assert (Hc : Dict.contains (Dict.set d (key x) v) y
                   = Dict.contains d y).
      { unfold Dict.contains.
        destruct (string_dec (key x) y) as [<-|Hne].
        - rewrite get_set_same. unfold Dict.contains in E.
          now destruct (Dict.get d (key x)).
        - now rewrite get_set_other. }
      rewrite Hc.
      destruct (String.eqb_spec y (key x)) as [->|Hne]; simpl.
      * now rewrite E.
      * now rewrite andb_true_r.
    + rewrite keys_set_absent by exact E. rewrite <- app_assoc. simpl.
      do 2 f_equal.
      rewrite filter_filter. apply filter_ext_in. intros y _.
      unfold Dict.contains.
      destruct (String.eqb_spec y (key x)) as [->|Hne]; simpl.
      * rewrite get_set_same. now rewrite andb_false_r.
      * rewrite get_set_other by congruence. now rewrite andb_true_r.
Qed.

Lemma group_keys_empty (l : list X) :
  Dict.keys (fold_left step l Dict.empty) = first_seen (map key l).
Proof.
  rewrite group_keys. simpl.
  apply filter_all_true. reflexivity.
Qed.

Lemma group_get_empty (l : list X) (k : string) :
  Dict.get (fold_left step l Dict.empty) k =
  match group_of key k l with
  | [] => None
  | g => Some (fold_left f g init)
  end.
Proof. now rewrite group_get. Qed.

Lemma group_keys_NoDup (l : list X) :
  NoDup (Dict.keys (fold_left step l Dict.empty)).
Proof. rewrite group_keys_empty. apply first_seen_NoDup. Qed.
End Grouping.

(** ** Division *)

Lemma truediv_pos (a b : Z) :
  0 < b ->
  exists m, truediv a b = Ok m /\ (m * inject_Z b == inject_Z a)%Q.
Proof.
  intros Hb. unfold truediv.
  destruct (Z.eqb_spec b 0) as [->|_]; [lia|].
  eexists. split; [reflexivity|].
  rewrite Qred_correct.
  unfold Qeq, Qmult, inject_Z. simpl.
  rewrite Z.sgn_pos by exact Hb.
  rewrite Pos.mul_1_r, Z2Pos.id by lia.
  rewrite Z.abs_eq by lia. lia.
Qed.

Lemma mean_of_nonempty (v : list Z) :
  v <> [] -> exists m, mean_of v = Ok m /\ is_mean m v.
Proof.
  intros Hv. unfold mean_of.
  destruct (truediv_pos (sum v) (len v)) as [m [Hm Hq]].
  - destruct v; [contradiction|]. rewrite len_cons.
    pose proof (len_nonneg v). lia.
  - exists m. repeat split; assumption.
Qed.

(** ** [reviews_count_per_park] *)

Lemma Counter_as_group (xs : list string) :
  Counter xs
  = fold_left (group_step (fun x => x) (fun c _ => c + 1) 0) xs Dict.empty.
Proof. reflexivity. Qed.

Lemma Counter_keys (xs : list string) : Dict.keys (Counter xs) = first_seen xs.
Proof. rewrite Counter_as_group, group_keys_empty. now rewrite map_id. Qed.

Lemma count_from (g : list string) (a : Z) :
  fold_left (fun c _ => c + 1) g a = a + len g.
Proof.
  revert a. induction g as [|x g IH]; intros a; simpl.
  - unfold len. simpl. lia.
  - rewrite IH, len_cons. lia.
Qed.

Lemma Counter_get (xs : list string) (k : string) :
  In k xs ->
  Dict.get (Counter xs) k = Some (len (group_of (fun x => x) k xs)).
Proof.
  intros Hin. rewrite Counter_as_group, group_get_empty.
  destruct (group_of (fun x => x) k xs) as [|y g] eqn:E.
  - exfalso. assert (H : In k (group_of (fun x => x) k xs)).
    { apply filter_In. split; [exact Hin | apply String.eqb_refl]. }
    now rewrite E in H.
  - now rewrite count_from.
Qed.

Lemma reviews_count_per_park_Counter (reviews : list Review) :
  reviews_count_per_park reviews = Counter (map park reviews).
Proof.
  unfold reviews_count_per_park, Dict.items. apply of_pairs_id.
  rewrite Counter_keys. apply first_seen_NoDup.
Qed.

Lemma sum_values_incr (d : Dict.t Z) (k : string) :
  sum (Dict.values (Dict.set d k (Dict.get_default d k 0 + 1)))
  = sum (Dict.values d) + 1.
Proof.
  unfold Dict.get_default.
  induction d as [|[k' v'] d IH]; simpl.
  - reflexivity.
  - destruct (String.eqb k' k); simpl.
    + rewrite !sum_cons. lia.
    + rewrite !sum_cons. rewrite IH. lia.
Qed.

Lemma Counter_total_from (xs : list string) (d : Dict.t Z) :
  sum (Dict.values
         (fold_left (fun c x => Dict.set c x (Dict.get_default c x 0 + 1))
            xs d))
  = sum (Dict.values d) + len xs.
Proof.
  revert d. induction xs as [|x xs IH]; intros d; simpl.
  - unfold len. simpl. lia.
  - rewrite IH, sum_values_incr, len_cons. lia.
Qed.

(** The counts add up to the number of records, for every input. *)
Lemma count_per_park_total_any (reviews : list Review) :
  sum (Dict.values (reviews_count_per_park reviews)) = len reviews.
Proof.
  rewrite reviews_count_per_park_Counter. unfold Counter.
  rewrite Counter_total_from. unfold len. rewrite length_map.
  reflexivity.
Qed.

(** C5. For every non-empty record sequence, the counts returned by
    [reviews_count_per_park] add up to the length of the sequence. *)
Theorem count_per_park_total (reviews : list Review) :
  reviews <> [] ->
  sum (Dict.values (reviews_count_per_park reviews)) = len reviews.
Proof. intros _. apply count_per_park_total_any. Qed.

Lemma count_per_park_total_witness :
  SAMPLE_REVIEWS <> []
  /\ sum (Dict.values (reviews_count_per_park SAMPLE_REVIEWS))
     = len SAMPLE_REVIEWS.
Proof.
  split.
  - discriminate.
  - apply (count_per_park_total SAMPLE_REVIEWS). discriminate.
Defined.

(** The keys of the count map are the raw park strings of the input, each
    once, in the order of first occurrence. *)
Lemma count_keys (reviews : list Review) :
  Dict.keys (reviews_count_per_park reviews) = first_seen (map park reviews).
Proof. rewrite reviews_count_per_park_Counter. apply Counter_keys. Qed.

Lemma group_of_map {X : Type} (key : X -> string) (k : string) (l : list X) :
  group_of (fun x => x) k (map key l) = map key (group_of key k l).
Proof.
  unfold group_of. induction l as [|x l IH]; simpl; [reflexivity|].
  destruct (String.eqb (key x) k); simpl; now rewrite IH.
Qed.

(** The count of a key is the number of records whose raw park string is
    that very string. *)
Lemma count_get (reviews : list Review) (r : Review) :
  In r reviews ->
  Dict.get (reviews_count_per_park reviews) (park r)
  = Some (len (group_of park (park r) reviews)).
Proof.
  intros Hin. rewrite reviews_count_per_park_Counter, Counter_get.
  - rewrite group_of_map. unfold len. now rewrite length_map.
  - now apply in_map.
Qed.

Lemma get_reviews_by_park_In (reviews : list Review) (p : string) (r : Review) :
  In r (get_reviews_by_park reviews p)
  <-> In r reviews /\ lower (park r) = lower p.
Proof.
  unfold get_reviews_by_park. now rewrite filter_In, park_matches_spec.
Qed.

Lemma two_filters_within {A : Type} (f g h : A -> bool) (l : list A) :
  (forall x, f x = true -> g x = false) ->
  (forall x, f x = true -> h x = true) ->
  (forall x, g x = true -> h x = true) ->
  len (filter f l) + len (filter g l) <= len (filter h l).
Proof.
  intros Hfg Hf Hg. induction l as [|x l IH]; [reflexivity|].
  cbn [filter].
  destruct (f x) eqn:Ef.
  - rewrite (Hfg x Ef), (Hf x Ef), !len_cons. lia.
  - destruct (g x) eqn:Eg.
    + rewrite (Hg x Eg), !len_cons. lia.
    + destruct (h x); [rewrite len_cons|]; lia.
Qed.

(** C7. The count map is keyed by the raw park strings: its keys are
    exactly the park strings of the input, pairwise distinct, and the
    count of a key is the number of records of exactly that string; so two
    records whose park strings differ only in case have two keys, each
    counting only the records of its own spelling.  [get_reviews_by_park]
    compares case-insensitively: it returns, in the order of the input,
    exactly the records whose lower-cased park is the lower-cased
    argument, hence both such records for either spelling, and at least as
    many records as the two counts together. *)
Theorem count_keys_raw_filter_folds_case (reviews : list Review) :
  let counts := reviews_count_per_park reviews in
  let raw_count k := len (filter (fun r => String.eqb (park r) k) reviews) in
  (forall k, In k (Dict.keys counts) <-> exists r, In r reviews /\ park r = k)
  /\ NoDup (Dict.keys counts)
  /\ (forall r, In r reviews ->
        Dict.get counts (park r) = Some (raw_count (park r)))
  /\ (forall p r,
        In r (get_reviews_by_park reviews p)
        <-> In r reviews /\ lower (park r) = lower p)
  /\ (forall p,
        get_reviews_by_park reviews p
        = filter
            (fun r =>
               if string_dec (lower (park r)) (lower p) then true else false)
            reviews)
  /\ (forall r1 r2,
        In r1 reviews -> In r2 reviews ->
        park r1 <> park r2 -> lower (park r1) = lower (park r2) ->
        In (park r1) (Dict.keys counts) /\ In (park r2) (Dict.keys counts)
        /\ Dict.get counts (park r1) = Some (raw_count (park r1))
        /\ Dict.get counts (park r2) = Some (raw_count (park r2))
        /\ (forall p, p = park r1 \/ p = park r2 ->
              In r1 (get_reviews_by_park reviews p)
              /\ In r2 (get_reviews_by_park reviews p)
              /\ raw_count (park r1) + raw_count (park r2)
                 <= len (get_reviews_by_park reviews p))).
Proof.
  intros counts raw_count.
  assert (Hkeys : forall k, In k (Dict.keys counts)
                            <-> exists r, In r reviews /\ park r = k).
  { intros k. unfold counts. rewrite count_keys, first_seen_In, in_map_iff.
    split; intros [r [Ha Hb]]; exists r; tauto. }
  assert (Hget : forall r, In r reviews ->
                   Dict.get counts (park r) = Some (raw_count (park r))).
  { intros r Hr. now apply count_get. }
  split; [exact Hkeys|].
  split; [unfold counts; rewrite count_keys; apply first_seen_NoDup|].
  split; [exact Hget|].
  split; [intros p r; apply get_reviews_by_park_In|].
  split.
  { intros p. unfold get_reviews_by_park. apply filter_ext. intros r.
    unfold park_matches.
    destruct (string_dec (lower (park r)) (lower p)) as [E|E].
    - now apply String.eqb_eq.
    - now apply String.eqb_neq. }
  intros r1 r2 H1 H2 Hne Hlow.
  split; [apply Hkeys; now exists r1|].
  split; [apply Hkeys; now exists r2|].
  split; [now apply Hget|].
  split; [now apply Hget|].
  intros p Hp.
  assert (Hp1 : lower (park r1) = lower p) by (destruct Hp; congruence).
  assert (Hp2 : lower (park r2) = lower p) by (destruct Hp; congruence).
  split; [apply get_reviews_by_park_In; tauto|].
  split; [apply get_reviews_by_park_In; tauto|].
  unfold raw_count, get_reviews_by_park. apply two_filters_within.
  - intros x Hx. apply String.eqb_eq in Hx. apply String.eqb_neq.
    congruence.
  - intros x Hx. apply String.eqb_eq in Hx. apply park_matches_spec.
    congruence.
  - intros x Hx. apply String.eqb_eq in Hx. apply park_matches_spec.
    congruence.
Qed.

Lemma count_keys_raw_filter_folds_case_witness :
  let a := mkReview 1 5 "2019-01" "Brazil" "Paris" in
  let b := mkReview 2 3 "2019-02" "France" "PARIS" in
  let c := mkReview 3 4 "2019-03" "Spain" "Orlando" in
  Dict.get (reviews_count_per_park [a; c; b]) "Paris" = Some 1
  /\ Dict.get (reviews_count_per_park [a; c; b]) "PARIS" = Some 1
  /\ In a (get_reviews_by_park [a; c; b] "PARIS")
  /\ In b (get_reviews_by_park [a; c; b] "Paris")
  /\ ~ In c (get_reviews_by_park [a; c; b] "Paris").
Proof.
  intros a b c.
  assert (Ha : In a [a; c; b]) by (left; reflexivity).
  assert (Hb : In b [a; c; b]) by (right; right; left; reflexivity).
  assert (Hne : park a <> park b) by discriminate.
  assert (Hlow : lower (park a) = lower (park b)) by reflexivity.
  destruct (count_keys_raw_filter_folds_case [a; c; b])
    as [_ [_ [_ [Hin [_ Hpair]]]]].
  destruct (Hpair a b Ha Hb Hne Hlow) as [_ [_ [Ga [Gb Hf]]]].
  split; [exact Ga|]. split; [exact Gb|].
  split; [apply (Hf "PARIS"); now right|].
  split; [apply (Hf "Paris"); now left|].
  intros Hc. apply Hin in Hc. destruct Hc as [_ Hc]. discriminate Hc.
Defined.

(** ** [avg_rating_by_park_year] *)

(** C1. [avg_rating_by_park_year] returns the no-data value [None] (no
    number, no exception) when no record matches the park up to case with a
    period that starts with the year; when some record matches, it returns
    the arithmetic mean of the ratings of the matching records. *)
Theorem avg_rating_by_park_year_none_or_mean
    (reviews : list Review) (p year : string) :
  let matching := filter (matchesb p year) reviews in
  (forall r, In r matching <-> In r reviews /\ Matches p year r)
  /\ ((forall r, In r reviews -> ~ Matches p year r) ->
      avg_rating_by_park_year reviews p year = Ok None)
  /\ ((exists r, In r reviews /\ Matches p year r) ->
      exists m, avg_rating_by_park_year reviews p year = Ok (Some m)
                /\ is_mean m (map rating matching)).
Proof.
  intros matching.
  assert (Hin : forall r, In r matching <-> In r reviews /\ Matches p year r).
  { intros r. unfold matching. now rewrite filter_In, matchesb_spec. }
  split; [exact Hin|].
  unfold avg_rating_by_park_year. fold (matchesb p year). fold matching.
  split.
  - intros Hnone. destruct matching as [|r l]; [reflexivity|].
    exfalso. destruct (Hin r) as [H _].
    destruct H as [Hr Hm]; [now left|]. exact (Hnone r Hr Hm).
  - intros [r [Hr Hm]].
    assert (Hne : map rating matching <> []).
    { destruct matching as [|r' l]; [|discriminate].
      exfalso. now apply (Hin r). }
    destruct (mean_of_nonempty _ Hne) as [m [Hm1 Hm2]].
    exists m. split; [|exact Hm2].
    unfold mean_of in Hm1.
    destruct (map rating matching) as [|z zs]; [contradiction|].
    now rewrite Hm1.
Qed.

(** The cases of [tests/test_process.py]. *)
Example test_avg_rating_by_park_year :
  avg_rating_by_park_year SAMPLE_REVIEWS "Disneyland Paris" "2019"
  = Ok (Some (4 # 1))
  /\ avg_rating_by_park_year SAMPLE_REVIEWS "Disney World Orlando" "2020"
     = Ok (Some (9 # 2))
  /\ avg_rating_by_park_year SAMPLE_REVIEWS "Disneyland Paris" "2020"
     = Ok None.
Proof. repeat split. Qed.

Example test_reviews_count_per_park :
  reviews_count_per_park SAMPLE_REVIEWS
  = [("Disneyland Paris", 3); ("Disney World Orlando", 2)].
Proof. reflexivity. Qed.

Example test_avg_rating_per_park :
  avg_rating_per_park SAMPLE_REVIEWS
  = Ok [("Disneyland Paris", 4 # 1); ("Disney World Orlando", 9 # 2)].
Proof. reflexivity. Qed.

Example test_park_summary :
  park_summary SAMPLE_REVIEWS
  = Ok [("Disneyland Paris", mkSummary 3 2 (4 # 1) 3);
        ("Disney World Orlando", mkSummary 2 2 (9 # 2) 2)].
Proof. reflexivity. Qed.

(** ** Rounding *)

Lemma round_half_even_bounds (y : Q) (a b : Z) :
  (inject_Z a <= y)%Q -> (y <= inject_Z b)%Q ->
  a <= round_half_even y <= b.
Proof.
  intros Ha Hb.
  assert (Hfa : a <= Qfloor y).
  { rewrite <- (Qfloor_Z a). now apply Qfloor_resp_le. }
  assert (Hfb : Qfloor y <= b).
  { rewrite <- (Qfloor_Z b). now apply Qfloor_resp_le. }
  unfold round_half_even.
  destruct (Z.eq_dec (Qfloor y) b) as [Heq|Hneq].
  - assert (Hy : (y - inject_Z (Qfloor y) == 0)%Q).
    { rewrite Heq. apply Qle_antisym.
      - apply (Qplus_le_l _ _ (inject_Z b)). ring_simplify. exact Hb.
      - apply (Qplus_le_l _ _ (inject_Z b)). ring_simplify.
        rewrite <- Heq. apply Qfloor_le. }
    destruct (Qcompare_spec (y - inject_Z (Qfloor y)) (1 # 2)) as [H|H|H].
    + rewrite Hy in H. discriminate H.
    + lia.
    + rewrite Hy in H. discriminate H.
  - destruct (Qcompare (y - inject_Z (Qfloor y)) (1 # 2)); [|lia|lia].
    destruct (Z.even (Qfloor y)); lia.
Qed.

Lemma round_half_even_comp (x y : Q) :
  (x == y)%Q -> round_half_even x = round_half_even y.
Proof.
  intros H. unfold round_half_even.
  rewrite (Qfloor_comp _ _ H).
  assert (Hc : (x - inject_Z (Qfloor y) ?= 1 # 2)%Q
               = (y - inject_Z (Qfloor y) ?= 1 # 2)%Q).
  { apply Qcompare_comp; [now rewrite H | reflexivity]. }
  now rewrite Hc.
Qed.

Lemma round2_comp (x y : Q) : (x == y)%Q -> round2 x = round2 y.
Proof.
  intros H. unfold round2.
  rewrite (round_half_even_comp (x * inject_Z 100) (y * inject_Z 100)).
  - reflexivity.
  - now rewrite H.
Qed.

Lemma round2_bounds (x : Q) (a b : Z) :
  (inject_Z a <= x)%Q -> (x <= inject_Z b)%Q ->
  (inject_Z a <= round2 x)%Q /\ (round2 x <= inject_Z b)%Q.
Proof.
  intros Ha Hb. unfold round2. rewrite Qred_correct.
  destruct (round_half_even_bounds (x * inject_Z 100) (a * 100) (b * 100))
    as [H1 H2].
  - rewrite inject_Z_mult. apply Qmult_le_compat_r; [exact Ha | easy].
  - rewrite inject_Z_mult. apply Qmult_le_compat_r; [exact Hb | easy].
  - unfold Qle, inject_Z in *. cbn [Qnum Qden]. split; lia.
Qed.

(** ** [park_summary] *)

Lemma summary_fold_as_group (reviews : list Review) :
  fold_left summary_step reviews Dict.empty
  = fold_left (group_step park acc_update new_entry) reviews Dict.empty.
Proof. reflexivity. Qed.

Lemma acc_fold_reviews (g : list Review) (a : Acc) :
  acc_reviews (fold_left acc_update g a) = acc_reviews a + len g.
Proof.
  revert a. induction g as [|r g IH]; intros a; simpl.
  - unfold len. simpl. lia.
  - rewrite IH, len_cons. simpl. lia.
Qed.

Lemma acc_fold_positive (g : list Review) (a : Acc) :
  acc_positive (fold_left acc_update g a)
  = acc_positive a + len (filter (fun r => 4 <=? rating r) g).
Proof.
  revert a. induction g as [|r g IH]; intros a; simpl.
  - unfold len. simpl. lia.
  - rewrite IH. simpl. destruct (4 <=? rating r).
    + rewrite len_cons. lia.
    + lia.
Qed.

Lemma acc_fold_avg (g : list Review) (a : Acc) :
  (acc_avg (fold_left acc_update g a)
   == acc_avg a + inject_Z (sum (map rating g)))%Q.
Proof.
  revert a. induction g as [|r g IH]; intros a; simpl.
  - unfold sum. simpl. ring.
  - rewrite IH. simpl. unfold fadd. rewrite Qred_correct.
    rewrite sum_cons, inject_Z_plus. ring.
Qed.

Lemma set_add_length (x : string) (s : set string) :
  (List.length (set_add string_dec x s) <= S (List.length s))%nat.
Proof.
  induction s as [|y s IH]; simpl; [lia|].
  destruct (string_dec x y); simpl; lia.
Qed.

Lemma acc_fold_countries_len (g : list Review) (a : Acc) :
  len (acc_countries (fold_left acc_update g a))
  <= len (acc_countries a) + len g.
Proof.
  revert a. induction g as [|r g IH]; intros a; simpl.
  - unfold len. simpl. lia.
  - etransitivity; [apply IH|]. simpl. rewrite len_cons.
    pose proof (set_add_length (location r) (acc_countries a)).
    unfold len. lia.
Qed.

(** The set of an entry holds the distinct locations of its group. *)
Lemma acc_fold_countries (g : list Review) (a : Acc) :
  NoDup (acc_countries a) ->
  NoDup (acc_countries (fold_left acc_update g a))
  /\ forall x, In x (acc_countries (fold_left acc_update g a))
               <-> In x (acc_countries a) \/ In x (map location g).
Proof.
  revert a. induction g as [|r g IH]; intros a Hnd; simpl.
  - split; [exact Hnd | tauto].
  - destruct (IH (acc_update a r)) as [H1 H2].
    + simpl. now apply set_add_nodup.
    + split; [exact H1|]. intros x. rewrite H2. simpl.
      split.
      * intros [H|H]; [|tauto].
        apply set_add_elim in H. destruct H as [->|H]; tauto.
      * intros [H|[<-|H]]; [left | left | tauto].
        -- now apply set_add_intro1.
        -- now apply set_add_intro2.
Qed.

Lemma finalize_all_ok (d : Dict.t Acc) :
  (forall k a, In (k, a) d -> acc_reviews a <> 0) ->
  finalize_all d = Ok (map (fun kv => (fst kv, finalized (snd kv))) d).
Proof.
  induction d as [|[k a] d IH]; intros H; simpl; [reflexivity|].
  rewrite IH by (intros k' a' Hin; apply (H k' a'); now right).
  unfold finalize, fdiv.
  destruct (Z.eqb_spec (acc_reviews a) 0) as [E|_].
  - exfalso. apply (H k a); [now left | exact E].
  - reflexivity.
Qed.

(** An entry of the accumulated map is the fold of [acc_update] over the
    records of its park, of which there is at least one. *)
Lemma summary_entry (reviews : list Review) (k : string) (a : Acc) :
  In (k, a) (fold_left summary_step reviews Dict.empty) ->
  group_of park k reviews <> []
  /\ a = fold_left acc_update (group_of park k reviews) new_entry.
Proof.
  intros Hin. rewrite summary_fold_as_group in Hin.
  apply in_get in Hin; [|apply group_keys_NoDup].
  rewrite group_get_empty in Hin.
  destruct (group_of park k reviews) as [|r g]; [discriminate|].
  split; [discriminate|]. now injection Hin as <-.
Qed.

Lemma park_summary_ok (reviews : list Review) :
  park_summary reviews
  = Ok (map (fun kv => (fst kv, finalized (snd kv)))
          (fold_left summary_step reviews Dict.empty)).
Proof.
  unfold park_summary. apply finalize_all_ok.
  intros k a Hin. apply summary_entry in Hin. destruct Hin as [Hne ->].
  rewrite acc_fold_reviews. simpl.
  destruct (group_of park k reviews) as [|r g]; [contradiction|].
  rewrite len_cons. pose proof (len_nonneg g). lia.
Qed.

Lemma park_summary_keys (reviews : list Review) (summ : Dict.t Summary) :
  park_summary reviews = Ok summ ->
  Dict.keys summ = first_seen (map park reviews).
Proof.
  rewrite park_summary_ok. intros [= <-].
  unfold Dict.keys. rewrite map_map. simpl.
  change (map (fun x : string * Acc => fst x)
            (fold_left summary_step reviews Dict.empty))
    with (Dict.keys (fold_left summary_step reviews Dict.empty)).
  rewrite summary_fold_as_group. apply group_keys_empty.
Qed.

(** The entry of a park in the summary, from the records of that park. *)
Lemma park_summary_entry (reviews : list Review) (summ : Dict.t Summary)
    (k : string) (s : Summary) :
  park_summary reviews = Ok summ -> In (k, s) summ ->
  let g := group_of park k reviews in
  g <> []
  /\ s = finalized (fold_left acc_update g new_entry).
Proof.
  rewrite park_summary_ok. intros [= <-] Hin.
  apply in_map_iff in Hin. destruct Hin as [[k' a] [Heq Hin]].
  cbn [fst snd] in Heq. injection Heq as Hk Hs. subst k' s.
  apply summary_entry in Hin. destruct Hin as [Hne ->]. now split.
Qed.

Lemma sum_ratings_bounds (g : list Review) :
  (forall r, In r g -> 1 <= rating r <= 5) ->
  len g <= sum (map rating g) <= 5 * len g.
Proof.
  induction g as [|r g IH]; intros H.
  - unfold len, sum. simpl. lia.
  - cbn [map]. rewrite sum_cons, len_cons.
    assert (Hr : 1 <= rating r <= 5) by (apply H; now left).
    assert (Hg : len g <= sum (map rating g) <= 5 * len g).
    { apply IH. intros r' Hr'. apply H. now right. }
    lia.
Qed.

Lemma group_of_In {X : Type} (key : X -> string) (k : string) (l : list X)
    (x : X) :
  In x (group_of key k l) <-> In x l /\ key x = k.
Proof. unfold group_of. now rewrite filter_In, String.eqb_eq. Qed.

Lemma filter_len_le {A : Type} (f : A -> bool) (l : list A) :
  len (filter f l) <= len l.
Proof. unfold len. pose proof (filter_length_le f l). lia. Qed.

Lemma finalized_avg_bounds (g : list Review) :
  g <> [] -> (forall r, In r g -> 1 <= rating r <= 5) ->
  (0 <= s_avg (finalized (fold_left acc_update g new_entry)))%Q
  /\ (s_avg (finalized (fold_left acc_update g new_entry)) <= 5)%Q.
Proof.
  intros Hne Hg.
  assert (Hlen : 1 <= len g).
  { destruct g as [|r g']; [contradiction|].
    rewrite len_cons. pose proof (len_nonneg g'). lia. }
  pose proof (sum_ratings_bounds g Hg) as Hsum.
  unfold finalized. cbn [s_avg].
  apply (round2_bounds _ 0 5).
  - rewrite Qred_correct, acc_fold_avg, acc_fold_reviews.
    cbn [acc_avg acc_reviews new_entry].
    apply Qle_shift_div_l.
    + rewrite <- (Zlt_Qlt 0). lia.
    + rewrite Qmult_0_l, Qplus_0_l, <- (Zle_Qle 0). lia.
  - rewrite Qred_correct, acc_fold_avg, acc_fold_reviews.
    cbn [acc_avg acc_reviews new_entry].
    apply Qle_shift_div_r.
    + rewrite <- (Zlt_Qlt 0). lia.
    + rewrite Qplus_0_l, <- inject_Z_mult, <- Zle_Qle. lia.
Qed.

(** C2. When every rating lies in 1..5, [park_summary] returns a map in
    which every entry has [positive <= reviews], [0 <= avg <= 5] and
    [countries <= reviews], and a park string that no record carries is
    not a key of the map. *)
Theorem park_summary_bounds (reviews : list Review) :
  (forall r, In r reviews -> 1 <= rating r <= 5) ->
  exists summ,
    park_summary reviews = Ok summ
    /\ (forall k s, In (k, s) (Dict.items summ) ->
          s_positive s <= s_reviews s
          /\ (0 <= s_avg s)%Q /\ (s_avg s <= 5)%Q
          /\ s_countries s <= s_reviews s)
    /\ (forall k, (forall r, In r reviews -> park r <> k) ->
          ~ In k (Dict.keys summ)).
Proof.
  intros Hdom.
  destruct (park_summary reviews) as [summ|e] eqn:E;
    [|rewrite park_summary_ok in E; discriminate].
  exists summ. split; [reflexivity|]. split.
  - intros k s Hin. unfold Dict.items in Hin.
    destruct (park_summary_entry reviews summ k s E Hin) as [Hne ->].
    set (g := group_of park k reviews) in *.
    assert (Hg : forall r, In r g -> 1 <= rating r <= 5).
    { intros r Hr. apply Hdom. now apply group_of_In in Hr. }
    destruct (finalized_avg_bounds g Hne Hg) as [Hlo Hhi].
    split; [|split; [exact Hlo | split; [exact Hhi|]]].
    + unfold finalized. cbn [s_positive s_reviews].
      rewrite acc_fold_reviews, acc_fold_positive.
      cbn [acc_positive acc_reviews new_entry].
      pose proof (filter_len_le (fun r => 4 <=? rating r) g). lia.
    + unfold finalized. cbn [s_countries s_reviews].
      rewrite acc_fold_reviews.
      pose proof (acc_fold_countries_len g new_entry) as Hc.
      cbn [acc_countries acc_reviews new_entry] in *.
      change (len (empty_set string)) with 0 in Hc. lia.
  - intros k Hnone Hin.
    rewrite (park_summary_keys reviews summ E) in Hin.
    apply first_seen_In, in_map_iff in Hin.
    destruct Hin as [r [Hp Hr]]. exact (Hnone r Hr Hp).
Qed.

Lemma park_summary_bounds_witness :
  (forall r, In r SAMPLE_REVIEWS -> 1 <= rating r <= 5)
  /\ exists summ,
       park_summary SAMPLE_REVIEWS = Ok summ
       /\ (forall k s, In (k, s) (Dict.items summ) ->
             s_positive s <= s_reviews s
             /\ (0 <= s_avg s)%Q /\ (s_avg s <= 5)%Q
             /\ s_countries s <= s_reviews s)
       /\ (forall k, (forall r, In r SAMPLE_REVIEWS -> park r <> k) ->
             ~ In k (Dict.keys summ)).
Proof.
  assert (H : forall r, In r SAMPLE_REVIEWS -> 1 <= rating r <= 5).
  { intros r Hr. simpl in Hr.
    repeat (destruct Hr as [<-|Hr]; [simpl; lia|]). contradiction. }
  split; [exact H|]. exact (park_summary_bounds SAMPLE_REVIEWS H).
Defined.

(** ** The annual-average message *)

Lemma average_message_no_data (p year : string) (avg : option Q) :
  average_message p year avg = Msg "No data."
  <-> avg = None \/ exists x, avg = Some x /\ (x == 0)%Q.
Proof.
  unfold average_message, truthy_float. destruct avg as [x|].
  - destruct (Qeq_bool x 0) eqn:E; simpl.
    + split; [intros _ | reflexivity].
      right. exists x. split; [reflexivity | now apply Qeq_bool_iff].
    + split; [discriminate|].
      intros [H|[y [[= <-] Hy]]]; [discriminate|].
      apply Qeq_bool_iff in Hy. congruence.
  - split; [now left | reflexivity].
Qed.

(** C8. The handler shows "No data." for an average that is the number
    zero, not only for the no-data value: with one matching record of
    rating 0 the engine returns the number 0 and the message is the one of
    the no-data case. *)
Theorem zero_average_shown_as_no_data :
  let reviews := [mkReview 1 0 "2019-01" "Brazil" "Paris"] in
  avg_rating_by_park_year reviews "Paris" "2019" = Ok (Some 0%Q)
  /\ view_annual_average reviews "Paris" "2019" = Msg "No data."
  /\ view_annual_average [] "Paris" "2019" = Msg "No data.".
Proof. repeat split. Qed.

(** ** [avg_monthly_rating] on periods that do not split in two *)

(** C4. A record of the park whose period has no dash makes
    [avg_monthly_rating] raise [ValueError]: the record is not skipped and
    no twelve-entry result is returned.  A period that splits in two with
    an unknown month code is skipped. *)
Theorem monthly_rating_raises_on_undashed_period :
  let good := mkReview 1 5 "2019-01" "Brazil" "Paris" in
  avg_monthly_rating [good; mkReview 2 4 "missing" "USA" "Paris"] "Paris"
  = Raise ValueError
  /\ avg_monthly_rating [good; mkReview 2 4 "2019-13" "USA" "Paris"] "Paris"
     = avg_monthly_rating [good] "Paris".
Proof. split; reflexivity. Qed.

(** C3. With a period that does not split in two in one record of the
    park, [avg_monthly_rating] returns no entries at all: it raises
    [ValueError].  Without that record the twelve entries are returned. *)
Theorem monthly_rating_no_result_on_unsplit_period :
  avg_monthly_rating
    (SAMPLE_REVIEWS
     ++ [mkReview 6 4 "2019-01-15" "Spain" "Disneyland Paris"])
    "Disneyland Paris"
  = Raise ValueError
  /\ avg_monthly_rating SAMPLE_REVIEWS "Disneyland Paris"
     = Ok [("Jan", 9 # 2); ("Feb", 3 # 1); ("Mar", 0); ("Apr", 0);
           ("May", 0); ("Jun", 0); ("Jul", 0); ("Aug", 0);
           ("Sep", 0); ("Oct", 0); ("Nov", 0); ("Dec", 0)]%Q.
Proof. split; reflexivity. Qed.

(** ** Dictionary comprehensions and [avg_rating_per_park] *)

Lemma mean_of_eq (v : list Z) : v <> [] -> mean_of v = Ok (mean v).
Proof.
  intros Hv. unfold mean_of, mean, truediv.
  assert (Hlen : 0 < len v).
  { destruct v; [contradiction|]. rewrite len_cons.
    pose proof (len_nonneg v). lia. }
  destruct (Z.eqb_spec (len v) 0) as [E|_]; [lia|].
  rewrite Z.sgn_pos, Z.mul_1_l, Z.abs_eq by lia. reflexivity.
Qed.

Lemma mean_is_mean (v : list Z) : v <> [] -> is_mean (mean v) v.
Proof.
  intros Hv. destruct (mean_of_nonempty v Hv) as [m [H1 H2]].
  rewrite mean_of_eq in H1 by exact Hv. now injection H1 as ->.
Qed.

Lemma comprehension_from {V W : Type} (f : string -> V -> result W)
    (h : V -> W) (l : list (string * V)) (acc : Dict.t W) :
  NoDup (Dict.keys acc ++ Dict.keys l) ->
  (forall k v, In (k, v) l -> f k v = Ok (h v)) ->
  fold_left
    (fun acc kv =>
       out <- acc ;;
       w <- f (fst kv) (snd kv) ;;
       Ok (Dict.set out (fst kv) w))
    l (Ok acc)
  = Ok (acc ++ map (fun kv => (fst kv, h (snd kv))) l)%list.
Proof.
  revert acc. induction l as [|[k v] l IH]; intros acc Hnd Hf.
  - simpl. now rewrite app_nil_r.
  - cbn [fold_left bind fst snd].
    rewrite (Hf k v) by now left.
    cbn [bind]. rewrite set_fresh.
    + rewrite IH.
      * cbn [map fst snd]. now rewrite <- app_assoc.
      * unfold Dict.keys in *. rewrite map_app, <- app_assoc. exact Hnd.
      * intros k' v' Hin. apply Hf. now right.
    + apply get_none. intros Hin.
      apply NoDup_remove_2 in Hnd. apply Hnd.
      apply in_or_app. now left.
Qed.

Lemma comprehension_ok {V W : Type} (f : string -> V -> result W)
    (h : V -> W) (d : Dict.t V) :
  NoDup (Dict.keys d) ->
  (forall k v, In (k, v) d -> f k v = Ok (h v)) ->
  Dict.comprehension f d = Ok (map (fun kv => (fst kv, h (snd kv))) d).
Proof.
  intros Hnd Hf. unfold Dict.comprehension, Dict.items, Dict.empty.
  now rewrite (comprehension_from f h).
Qed.

Lemma keys_map_values {V W : Type} (h : V -> W) (d : Dict.t V) :
  Dict.keys (map (fun kv => (fst kv, h (snd kv))) d) = Dict.keys d.
Proof. unfold Dict.keys. rewrite map_map. reflexivity. Qed.

Lemma get_map_values {V W : Type} (h : V -> W) (d : Dict.t V) (k : string) :
  Dict.get (map (fun kv => (fst kv, h (snd kv))) d) k
  = option_map h (Dict.get d k).
Proof.
  induction d as [|[k' v] d IH]; simpl; [reflexivity|].
  destruct (String.eqb k' k); [reflexivity | exact IH].
Qed.

Lemma ratings_from (g : list Review) (a : list Z) :
  fold_left (fun v r => v ++ [rating r])%list g a = (a ++ map rating g)%list.
Proof.
  revert a. induction g as [|r g IH]; intros a; simpl.
  - now rewrite app_nil_r.
  - rewrite IH, <- app_assoc. reflexivity.
Qed.

(** The lists of ratings that the grouping loops build, for any key. *)
Lemma ratings_by_key_get (key : Review -> string) (l : list Review)
    (k : string) :
  Dict.get
    (fold_left (fun stats r => append_at stats (key r) (rating r))
       l Dict.empty) k
  = match group_of key k l with
    | [] => None
    | g => Some (map rating g)
    end.
Proof.
  change (fold_left (fun stats r => append_at stats (key r) (rating r))
            l Dict.empty)
    with (fold_left
            (group_step key (fun v r => v ++ [rating r])%list [])
            l Dict.empty).
  rewrite group_get_empty.
  destruct (group_of key k l) as [|r g]; [reflexivity|].
  now rewrite ratings_from.
Qed.

Lemma ratings_by_key_keys (key : Review -> string) (l : list Review) :
  Dict.keys
    (fold_left (fun stats r => append_at stats (key r) (rating r))
       l Dict.empty)
  = first_seen (map key l).
Proof.
  change (fold_left (fun stats r => append_at stats (key r) (rating r))
            l Dict.empty)
    with (fold_left
            (group_step key (fun v r => v ++ [rating r])%list [])
            l Dict.empty).
  apply group_keys_empty.
Qed.

(** The averages of the groups: the comprehension succeeds, because no
    group is empty. *)
Lemma averages_by_key (key : Review -> string) (l : list Review) :
  let stats :=
    fold_left (fun stats r => append_at stats (key r) (rating r))
      l Dict.empty in
  Dict.comprehension (fun _ v => mean_of v) stats
  = Ok (map (fun kv => (fst kv, mean (snd kv))) stats).
Proof.
  intros stats. apply comprehension_ok.
  - unfold stats. rewrite ratings_by_key_keys. apply first_seen_NoDup.
  - intros k v Hin. apply mean_of_eq.
    apply in_get in Hin;
      [|unfold stats; rewrite ratings_by_key_keys; apply first_seen_NoDup].
    unfold stats in Hin. rewrite ratings_by_key_get in Hin.
    destruct (group_of key k l) as [|r g]; [discriminate|].
    injection Hin as <-. discriminate.
Qed.

Lemma avg_rating_per_park_get (reviews : list Review) (r : Review) :
  In r reviews ->
  exists avgs,
    avg_rating_per_park reviews = Ok avgs
    /\ Dict.keys avgs = first_seen (map park reviews)
    /\ Dict.get avgs (park r)
       = Some (mean (map rating (group_of park (park r) reviews))).
Proof.
  intros Hin. unfold avg_rating_per_park.
  rewrite (averages_by_key park reviews).
  eexists. split; [reflexivity|]. split.
  - rewrite keys_map_values. apply ratings_by_key_keys.
  - rewrite get_map_values, ratings_by_key_get.
    destruct (group_of park (park r) reviews) as [|r' g] eqn:E;
      [|reflexivity].
    exfalso. assert (H : In r (group_of park (park r) reviews))
      by (apply group_of_In; tauto).
    now rewrite E in H.
Qed.

(** ** [park_summary] against the single operations *)

Lemma len_map {A B : Type} (h : A -> B) (l : list A) : len (map h l) = len l.
Proof. unfold len. now rewrite length_map. Qed.

Lemma len_pos {A : Type} (l : list A) : l <> [] -> 0 < len l.
Proof.
  destruct l as [|x l]; [contradiction|]. intros _.
  rewrite len_cons. pose proof (len_nonneg l). lia.
Qed.

(** The average of a finalized entry is the rounded mean of its group. *)
Lemma finalized_avg (g : list Review) :
  g <> [] ->
  s_avg (finalized (fold_left acc_update g new_entry))
  = round2 (mean (map rating g)).
Proof.
  intros Hne. pose proof (len_pos g Hne) as Hlen.
  unfold finalized. cbn [s_avg]. apply round2_comp.
  unfold mean. rewrite !Qred_correct, acc_fold_avg, acc_fold_reviews.
  cbn [acc_avg acc_reviews new_entry].
  rewrite len_map, Qplus_0_l, Z.add_0_l.
  rewrite (Qmake_Qdiv (sum (map rating g)) (Z.to_pos (len g))).
  rewrite Z2Pos.id by exact Hlen. reflexivity.
Qed.

Lemma park_summary_get (reviews : list Review) (r : Review) :
  In r reviews ->
  exists summ,
    park_summary reviews = Ok summ
    /\ Dict.get summ (park r)
       = Some (finalized
                 (fold_left acc_update (group_of park (park r) reviews)
                    new_entry)).
Proof.
  intros Hin. rewrite park_summary_ok. eexists. split; [reflexivity|].
  rewrite get_map_values, summary_fold_as_group, group_get_empty.
  destruct (group_of park (park r) reviews) as [|r' g] eqn:E;
    [|reflexivity].
  exfalso. assert (H : In r (group_of park (park r) reviews))
    by (apply group_of_In; tauto).
  now rewrite E in H.
Qed.

(** C10. [park_summary] agrees with the single operations: it has the
    keys of [reviews_count_per_park], in the same order, and for every key
    its [reviews] field is the count of [reviews_count_per_park] and its
    [avg] field is the value of [avg_rating_per_park] rounded to two
    decimals. *)
Theorem park_summary_agrees_with_count_and_average (reviews : list Review) :
  exists summ avgs,
    park_summary reviews = Ok summ
    /\ avg_rating_per_park reviews = Ok avgs
    /\ Dict.keys summ = Dict.keys (reviews_count_per_park reviews)
    /\ Dict.keys avgs = Dict.keys (reviews_count_per_park reviews)
    /\ forall k, In k (Dict.keys summ) ->
         exists s c a,
           Dict.get summ k = Some s
           /\ Dict.get (reviews_count_per_park reviews) k = Some c
           /\ Dict.get avgs k = Some a
           /\ s_reviews s = c
           /\ s_avg s = round2 a.
Proof.
  destruct (park_summary reviews) as [summ|e] eqn:Es;
    [|rewrite park_summary_ok in Es; discriminate].
  destruct (avg_rating_per_park reviews) as [avgs|e] eqn:Ea;
    [|unfold avg_rating_per_park in Ea;
      rewrite (averages_by_key park reviews) in Ea; discriminate].
  exists summ, avgs.
  assert (Hks : Dict.keys summ = first_seen (map park reviews))
    by now apply park_summary_keys.
  split; [reflexivity|]. split; [reflexivity|].
  split; [now rewrite count_keys|].
  split.
  - rewrite count_keys. unfold avg_rating_per_park in Ea.
    rewrite (averages_by_key park reviews) in Ea. injection Ea as <-.
    rewrite keys_map_values. apply ratings_by_key_keys.
  - intros k Hk. rewrite Hks in Hk.
    apply first_seen_In, in_map_iff in Hk. destruct Hk as [r [<- Hr]].
    destruct (park_summary_get reviews r Hr) as [summ' [Es' Hs]].
    rewrite Es in Es'. injection Es' as <-.
    destruct (avg_rating_per_park_get reviews r Hr) as [avgs' [Ea' [_ Ha]]].
    rewrite Ea in Ea'. injection Ea' as <-.
    set (g := group_of park (park r) reviews) in *.
    assert (Hg : g <> []).
    { intros E. assert (H : In r g) by (apply group_of_In; tauto).
      now rewrite E in H. }
    exists (finalized (fold_left acc_update g new_entry)), (len g),
      (mean (map rating g)).
    split; [exact Hs|]. split; [now apply count_get|].
    split; [exact Ha|]. split.
    + unfold finalized. cbn [s_reviews]. rewrite acc_fold_reviews.
      reflexivity.
    + now apply finalized_avg.
Qed.

(** ** Sorting *)

Lemma StronglySorted_snoc {A : Type} (R : A -> A -> Prop) (l : list A)
    (x : A) :
  StronglySorted R l -> Forall (fun y => R y x) l ->
  StronglySorted R (l ++ [x]).
Proof.
  induction 1 as [|y l Hl IH Hy]; intros Hx; simpl.
  - repeat constructor.
  - inversion Hx as [|? ? Hyx Hlx]; subst.
    constructor; [now apply IH|].
    apply Forall_app. split; [exact Hy | now repeat constructor].
Qed.

Lemma StronglySorted_rev {A : Type} (R : A -> A -> Prop) (l : list A) :
  StronglySorted R l -> StronglySorted (fun a b => R b a) (rev l).
Proof.
  induction 1 as [|y l Hl IH Hy]; simpl; [constructor|].
  apply StronglySorted_snoc; [exact IH | now apply Forall_rev].
Qed.

Lemma StronglySorted_firstn {A : Type} (R : A -> A -> Prop) (n : nat)
    (l : list A) :
  StronglySorted R l -> StronglySorted R (firstn n l).
Proof.
  intros H. revert n.
  induction H as [|y l Hl IH Hy]; intros [|n]; simpl; try constructor.
  - apply IH.
  - rewrite <- (firstn_skipn n l) in Hy.
    now apply Forall_app in Hy.
Qed.

Lemma filter_firstn_prefix {A : Type} (f : A -> bool) (n : nat)
    (l : list A) :
  prefix_of (filter f (firstn n l)) (filter f l).
Proof.
  exists (filter f (skipn n l)).
  now rewrite <- filter_app, firstn_skipn.
Qed.

Section SortingFacts.
Context {A : Type} (key : A -> Q).

(** The elements whose key is the number [v]. *)
Let tie (v : Q) (a : A) : bool := Qeq_bool (key a) v.

Lemma insert_perm (x : A) (l : list A) : Permutation (insert key x l) (x :: l).
Proof.
  induction l as [|y l IH]; simpl; [reflexivity|].
  destruct (Qle_bool (key x) (key y)); [reflexivity|].
  rewrite IH. apply perm_swap.
Qed.

Lemma stable_sort_perm (l : list A) : Permutation (stable_sort key l) l.
Proof.
  induction l as [|x l IH]; simpl; [reflexivity|].
  rewrite insert_perm. now constructor.
Qed.

Lemma insert_sorted (x : A) (l : list A) :
  StronglySorted (fun a b => key a <= key b)%Q l ->
  StronglySorted (fun a b => key a <= key b)%Q (insert key x l).
Proof.
  induction 1 as [|y l Hl IH Hy]; simpl.
  - repeat constructor.
  - destruct (Qle_bool (key x) (key y)) eqn:E.
    + apply Qle_bool_iff in E.
      constructor; [now constructor|].
      constructor; [exact E|].
      eapply Forall_impl; [|exact Hy].
      intros z Hz. simpl in *. now apply Qle_trans with (key y).
    + assert (Hyx : (key y <= key x)%Q).
      { apply Qlt_le_weak, Qnot_le_lt. intros H.
        apply Qle_bool_iff in H. congruence. }
      constructor; [exact IH|].
      assert (Hall : Forall (fun b => key y <= key b)%Q (x :: l))
        by now constructor.
      revert Hall. apply Permutation_Forall. symmetry. apply insert_perm.
Qed.

Lemma stable_sort_sorted (l : list A) :
  StronglySorted (fun a b => key a <= key b)%Q (stable_sort key l).
Proof.
  induction l as [|x l IH]; simpl; [constructor|].
  now apply insert_sorted.
Qed.

(** Insertion passes only elements of a smaller key, so it keeps the order
    of the elements of any one key. *)
Lemma insert_filter (v : Q) (x : A) (l : list A) :
  filter (tie v) (insert key x l) = filter (tie v) (x :: l).
Proof.
  induction l as [|y l IH]; [reflexivity|].
  cbn [insert]. destruct (Qle_bool (key x) (key y)) eqn:E; [reflexivity|].
  cbn [filter] in *. rewrite IH.
  destruct (tie v x) eqn:Ex; [|reflexivity].
  destruct (tie v y) eqn:Ey; [|reflexivity].
  exfalso. unfold tie in *.
  apply Qeq_bool_iff in Ex, Ey.
  assert (H : Qle_bool (key x) (key y) = true).
  { apply Qle_bool_iff. rewrite Ex, Ey. apply Qle_refl. }
  congruence.
Qed.

Lemma stable_sort_filter (v : Q) (l : list A) :
  filter (tie v) (stable_sort key l) = filter (tie v) l.
Proof.
  induction l as [|x l IH]; [reflexivity|].
  cbn [stable_sort fold_right]. fold (stable_sort key l).
  rewrite insert_filter. cbn [filter]. now rewrite IH.
Qed.

Lemma sorted_perm (reverse : bool) (l : list A) :
  Permutation (sorted key reverse l) l.
Proof.
  unfold sorted. destruct reverse.
  - rewrite <- Permutation_rev, stable_sort_perm. symmetry.
    apply Permutation_rev.
  - apply stable_sort_perm.
Qed.

(** [sorted(l, key=key, reverse=True)] is in descending order of the key. *)
Lemma sorted_reverse_descending (l : list A) :
  StronglySorted (fun a b => key b <= key a)%Q (sorted key true l).
Proof.
  unfold sorted.
  apply (StronglySorted_rev (fun a b => key a <= key b)%Q).
  apply stable_sort_sorted.
Qed.

(** [sorted(l, key=key, reverse=True)] keeps the elements of any one key in
    the order they have in [l]. *)
Lemma sorted_reverse_stable (v : Q) (l : list A) :
  filter (tie v) (sorted key true l) = filter (tie v) l.
Proof.
  unfold sorted.
  rewrite filter_rev, stable_sort_filter, filter_rev. apply rev_involutive.
Qed.
End SortingFacts.

(** ** Slices *)

Lemma slice_to_firstn {A : Type} (l : list A) (stop : Z) :
  exists n, slice_to l stop = firstn n l
            /\ (0 <= stop -> n = Z.to_nat stop).
Proof.
  unfold slice_to. destruct (Z.ltb_spec stop 0).
  - eexists. split; [reflexivity | lia].
  - eexists. split; [reflexivity | reflexivity].
Qed.

Lemma slice_to_len {A : Type} (l : list A) (stop : Z) :
  0 <= stop -> len (slice_to l stop) <= stop.
Proof.
  intros H. destruct (slice_to_firstn l stop) as [n [-> Hn]].
  unfold len. pose proof (firstn_le_length n l). rewrite (Hn H) in *. lia.
Qed.

(** ** [top_locations_for_park] *)

Lemma dict_by_keys {V : Type} (h : string -> V) (d : Dict.t V) :
  NoDup (Dict.keys d) ->
  (forall k, In k (Dict.keys d) -> Dict.get d k = Some (h k)) ->
  d = map (fun k => (k, h k)) (Dict.keys d).
Proof.
  induction d as [|[k v] d IH]; intros Hnd Hget; [reflexivity|].
  cbn [Dict.keys map fst] in *.
  inversion Hnd as [|? ? Hnotin Hnd']; subst.
  f_equal.
  - specialize (Hget k (or_introl eq_refl)). cbn [Dict.get] in Hget.
    rewrite String.eqb_refl in Hget. now injection Hget as ->.
  - apply IH; [exact Hnd'|].
    intros k' Hk'. specialize (Hget k' (or_intror Hk')).
    cbn [Dict.get] in Hget.
    destruct (String.eqb_spec k k') as [->|_]; [contradiction | exact Hget].
Qed.

(** The averages computed by the function are the averages per location
    of the records of the park. *)
Lemma location_averages_computed (reviews : list Review) (p : string) :
  let stats :=
    fold_left
      (fun stats r =>
         if park_matches p r then append_at stats (location r) (rating r)
         else stats)
      reviews Dict.empty in
  Dict.comprehension (fun _ v => mean_of v) stats
  = Ok (location_averages reviews p).
Proof.
  intros stats. unfold stats.
  rewrite (fold_left_filter (park_matches p)
             (fun stats r => append_at stats (location r) (rating r))).
  fold (get_reviews_by_park reviews p).
  rewrite (averages_by_key location (get_reviews_by_park reviews p)).
  f_equal. unfold location_averages.
  rewrite <- (ratings_by_key_keys location (get_reviews_by_park reviews p)).
  set (d := fold_left _ (get_reviews_by_park reviews p) Dict.empty).
  rewrite <- (keys_map_values mean d).
  apply dict_by_keys.
  - rewrite keys_map_values. unfold d. rewrite ratings_by_key_keys.
    apply first_seen_NoDup.
  - intros k Hk. rewrite keys_map_values in Hk.
    rewrite get_map_values. unfold d in *.
    rewrite ratings_by_key_keys in Hk. rewrite ratings_by_key_get.
    apply first_seen_In, in_map_iff in Hk. destruct Hk as [r [<- Hr]].
    destruct (group_of location (location r) (get_reviews_by_park reviews p))
      as [|r' g] eqn:E; [|reflexivity].
    exfalso.
    assert (H : In r (group_of location (location r)
                        (get_reviews_by_park reviews p)))
      by (apply group_of_In; tauto).
    now rewrite E in H.
Qed.

Lemma location_averages_keys (reviews : list Review) (p : string) :
  Dict.keys (location_averages reviews p)
  = first_seen (map location (get_reviews_by_park reviews p)).
Proof.
  unfold location_averages, Dict.keys. rewrite map_map. cbn [fst].
  apply map_id.
Qed.

Lemma top_locations_computed (reviews : list Review) (p : string)
    (top : option Z) :
  top_locations_for_park reviews p top
  = Ok (slice_to (sorted snd true (location_averages reviews p))
          match top with Some n => n | None => default_top end).
Proof.
  unfold top_locations_for_park.
  rewrite location_averages_computed. cbn [bind]. f_equal.
  unfold Dict.items. apply of_pairs_id.
  destruct (slice_to_firstn (sorted snd true (location_averages reviews p))
              match top with Some n => n | None => default_top end)
    as [n [-> _]].
  unfold Dict.keys. rewrite <- firstn_map.
  assert (Hnd : NoDup (map fst (sorted snd true (location_averages reviews p)))).
  { apply (Permutation_NoDup
             (l := map fst (location_averages reviews p))).
    - apply Permutation_map. symmetry. apply sorted_perm.
    - change (NoDup (Dict.keys (location_averages reviews p))).
      rewrite location_averages_keys. apply first_seen_NoDup. }
  rewrite <- (firstn_skipn n) in Hnd. now apply NoDup_app_remove_r in Hnd.
Qed.

(** C6. The output of [top_locations_for_park] is in descending order of
    the average; the entries of any one average are an initial segment of
    the entries of that average in first-encounter order; for a limit
    that is not negative the output has at most that many entries; and the
    limit is 10 when none is given. *)
Theorem top_locations_sorted_stable_truncated
    (reviews : list Review) (p : string) (top : option Z) :
  let n := match top with Some n => n | None => 10 end in
  let avgs := location_averages reviews p in
  exists out,
    top_locations_for_park reviews p top = Ok out
    /\ (0 <= n -> len (Dict.items out) <= n)
    /\ StronglySorted (fun a b => snd b <= snd a)%Q (Dict.items out)
    /\ (forall v, prefix_of
                    (filter (fun kv => Qeq_bool (snd kv) v) (Dict.items out))
                    (filter (fun kv => Qeq_bool (snd kv) v) avgs))
    /\ (forall kv, In kv (Dict.items out) -> In kv avgs)
    /\ Dict.keys avgs
       = first_seen (map location (get_reviews_by_park reviews p))
    /\ top_locations_for_park reviews p None
       = top_locations_for_park reviews p (Some 10).
Proof.
  intros n avgs. rewrite top_locations_computed.
  change (match top with Some n => n | None => default_top end) with n.
  fold avgs. eexists. split; [reflexivity|].
  unfold Dict.items.
  destruct (slice_to_firstn (sorted snd true avgs) n) as [m [Hm _]].
  split; [apply slice_to_len|].
  split.
  { rewrite Hm. apply StronglySorted_firstn.
    apply (sorted_reverse_descending snd). }
  split.
  { intros v. rewrite Hm.
    rewrite <- (sorted_reverse_stable snd v avgs).
    apply filter_firstn_prefix. }
  split.
  { intros kv Hin. rewrite Hm in Hin.
    apply (Permutation_in kv (sorted_perm snd true avgs)).
    rewrite <- (firstn_skipn m). apply in_or_app. now left. }
  split; [apply location_averages_keys | reflexivity].
Qed.

(** ** The CSV writer and reader *)

Lemma append_assoc (a b c : string) :
  ((a ++ b) ++ c = a ++ (b ++ c))%string.
Proof. induction a as [|x a IH]; simpl; [reflexivity | now rewrite IH]. Qed.

Lemma append_nil_r (a : string) : (a ++ EmptyString)%string = a.
Proof. induction a as [|x a IH]; simpl; [reflexivity | now rewrite IH]. Qed.

Lemma needs_quotes_app (a b : string) :
  Csv.needs_quotes (a ++ b) = Csv.needs_quotes a || Csv.needs_quotes b.
Proof.
  induction a as [|x a IH]; simpl; [reflexivity|].
  now rewrite IH, orb_assoc.
Qed.

Lemma uint_plain (d : Decimal.uint) :
  Csv.needs_quotes (DecimalString.NilEmpty.string_of_uint d) = false.
Proof. induction d; simpl; try reflexivity; exact IHd. Qed.

Lemma str_int_plain (z : Z) : Csv.needs_quotes (Csv.str_int z) = false.
Proof.
  unfold Csv.str_int, DecimalString.NilZero.string_of_int,
    DecimalString.NilZero.string_of_uint.
  destruct (Z.to_int z) as [d|d]; destruct d; simpl; try reflexivity;
    apply uint_plain.
Qed.

Lemma repr_float_plain (x : Q) : Csv.needs_quotes (Csv.repr_float x) = false.
Proof.
  unfold Csv.repr_float. cbv zeta.
  rewrite !needs_quotes_app, !str_int_plain.
  destruct (round_half_even (x * inject_Z 100) <? 0);
    destruct (_ =? 0); try rewrite str_int_plain; reflexivity.
Qed.

Lemma str_plain (v : Csv.value) :
  match v with Csv.VStr _ => True | _ => Csv.needs_quotes (Csv.str v) = false end.
Proof.
  destruct v; simpl; [exact I | apply str_int_plain | apply repr_float_plain].
Qed.

(** [int(str(z)) == z] *)
Lemma int_of_str_str_int (z : Z) : Csv.int_of_str (Csv.str_int z) = Some z.
Proof.
  unfold Csv.int_of_str, Csv.str_int.
  rewrite DecimalString.NilZero.isi.
  - simpl. now rewrite DecimalZ.of_to.
  - destruct z; simpl; try discriminate.
    intros [= H]. now apply DecimalPos.Unsigned.to_uint_nonnil in H.
  - destruct z; simpl; try discriminate.
    intros [= H]. now apply DecimalPos.Unsigned.to_uint_nonnil in H.
Qed.

Lemma read_from_cons (p : Csv.reader) (b : bool) (c : ascii) (rest : string) :
  Csv.read_from p b (String c rest)
  = (p1 <- Csv.parse_process_char p (Some c) ;;
     if Csv.ends_line c rest then
       p2 <- Csv.parse_process_char p1 None ;;
       match Csv.st p2 with
       | Csv.START_RECORD =>
           rows <- Csv.read_from Csv.parse_reset false rest ;;
           Ok (Csv.fields p2 :: rows)
       | _ => Csv.read_from p2 false rest
       end
     else Csv.read_from p1 true rest).
Proof. reflexivity. Qed.

Lemma special_false (c : ascii) :
  Csv.special c = false ->
  Ascii.eqb c Csv.delimiter = false /\ Ascii.eqb c Csv.quotechar = false
  /\ Csv.is_newline c = false.
Proof.
  unfold Csv.special, Csv.is_newline. intros H.
  repeat (apply orb_false_iff in H; destruct H as [H ?]).
  repeat split; try assumption.
  apply orb_false_iff. now split.
Qed.

Lemma ends_line_plain (c : ascii) (rest : string) :
  Csv.is_newline c = false -> Csv.ends_line c rest = false.
Proof.
  unfold Csv.is_newline, Csv.ends_line. intros H.
  apply orb_false_iff in H. destruct H as [-> ->]. reflexivity.
Qed.

(** The characters of an unquoted field, once the field has begun. *)
Lemma read_plain_in_field (s : string) :
  forall (fld : string) (fs : list string) (b : bool) (rest : string),
    Csv.needs_quotes s = false ->
    Csv.read_from (Csv.mkReader Csv.IN_FIELD fld fs) b (s ++ rest)
    = Csv.read_from (Csv.mkReader Csv.IN_FIELD (fld ++ s) fs)
        (match s with EmptyString => b | _ => true end) rest.
Proof.
  induction s as [|c s IH]; intros fld fs b rest Hs.
  - simpl. now rewrite append_nil_r.
  - simpl in Hs. apply orb_false_iff in Hs. destruct Hs as [Hc Hs].
    destruct (special_false c Hc) as [Hd [Hq Hn]].
    cbn [append]. rewrite read_from_cons.
    unfold Csv.parse_process_char at 1. cbn [Csv.st].
    rewrite Hn, Hd. cbn [bind].
    rewrite (ends_line_plain c _ Hn).
    unfold Csv.parse_add_char. cbn [Csv.st Csv.field Csv.fields].
    rewrite IH by exact Hs.
    rewrite append_assoc. cbn [append].
    now destruct s.
Qed.

(** The characters of a quoted field up to its closing quote. *)
Lemma read_quoted_body (s : string) :
  forall (fld : string) (fs : list string) (b : bool) (rest : string),
    Csv.read_from (Csv.mkReader Csv.IN_QUOTED_FIELD fld fs) b
      (Csv.escape s ++ String Csv.quotechar rest)
    = Csv.read_from (Csv.mkReader Csv.QUOTE_IN_QUOTED_FIELD (fld ++ s) fs)
        true rest.
Proof.
  induction s as [|c s IH]; intros fld fs b rest.
  - cbn [Csv.escape append]. rewrite read_from_cons, append_nil_r.
    reflexivity.
  - cbn [Csv.escape].
    destruct (Ascii.eqb c Csv.quotechar) eqn:Hq.
    + apply Ascii.eqb_eq in Hq. subst c.
      cbn [append]. rewrite read_from_cons.
      unfold Csv.parse_process_char at 1. cbn [Csv.st].
      rewrite Ascii.eqb_refl. cbn [bind].
      replace (Csv.ends_line Csv.quotechar _) with false by reflexivity.
      rewrite read_from_cons.
      unfold Csv.parse_process_char at 1, Csv.goto. cbn [Csv.st].
      rewrite Ascii.eqb_refl. cbn [bind].
      replace (Csv.ends_line Csv.quotechar _) with false by reflexivity.
      unfold Csv.goto, Csv.parse_add_char. cbn [Csv.st Csv.field Csv.fields].
      rewrite IH, append_assoc. reflexivity.
    + cbn [append]. rewrite read_from_cons.
      unfold Csv.parse_process_char at 1. cbn [Csv.st].
      rewrite Hq. cbn [bind].
      unfold Csv.parse_add_char. cbn [Csv.st Csv.field Csv.fields].
      destruct (Csv.ends_line c _).
      * unfold Csv.parse_process_char. cbn [Csv.st bind].
        rewrite IH, append_assoc. reflexivity.
      * rewrite IH, append_assoc. reflexivity.
Qed.

(** The text of a written field, read from the start of a field. *)
Lemma read_field_body (s0 : Csv.state) (fs : list string) (b : bool)
    (f rest : string) :
  s0 = Csv.START_FIELD \/ s0 = Csv.START_RECORD ->
  exists s1 b',
    field_read s0 s1
    /\ Csv.read_from (Csv.mkReader s0 EmptyString fs) b
         (Csv.write_field f ++ rest)
       = Csv.read_from (Csv.mkReader s1 f fs) b' rest.
Proof.
  intros Hs0. unfold Csv.write_field.
  destruct (Csv.needs_quotes f) eqn:Hf.
  - exists Csv.QUOTE_IN_QUOTED_FIELD, true. split; [right; now left|].
    cbn [append]. rewrite read_from_cons.
    assert (Hq : Csv.parse_process_char (Csv.mkReader s0 EmptyString fs)
                   (Some Csv.quotechar)
                 = Ok (Csv.mkReader Csv.IN_QUOTED_FIELD EmptyString fs)).
    { destruct Hs0 as [-> | ->]; reflexivity. }
    rewrite Hq. cbn [bind].
    replace (Csv.ends_line Csv.quotechar _) with false by reflexivity.
    rewrite append_assoc. cbn [append].
    now rewrite read_quoted_body.
  - destruct f as [|c f].
    + exists s0, b. split; [right; now right | reflexivity].
    + exists Csv.IN_FIELD, true. split; [now left|].
      simpl in Hf. apply orb_false_iff in Hf. destruct Hf as [Hc Hf].
      destruct (special_false c Hc) as [Hd [Hq Hn]].
      cbn [append]. rewrite read_from_cons.
      assert (Hp : Csv.parse_process_char (Csv.mkReader s0 EmptyString fs)
                     (Some c)
                   = Ok (Csv.mkReader Csv.IN_FIELD (String c EmptyString) fs)).
      { destruct Hs0 as [-> | ->]; unfold Csv.parse_process_char;
          cbn [Csv.st Csv.goto]; rewrite Hn, ?Hq, ?Hd; reflexivity. }
      rewrite Hp. cbn [bind]. rewrite (ends_line_plain c _ Hn).
      rewrite read_plain_in_field by exact Hf.
      cbn [append]. now destruct f.
Qed.

(** A delimiter after the text of a field. *)
Lemma read_delimiter (s0 s1 : Csv.state) (f : string) (fs : list string)
    (b : bool) (rest : string) :
  s0 = Csv.START_FIELD \/ s0 = Csv.START_RECORD ->
  field_read s0 s1 ->
  Csv.read_from (Csv.mkReader s1 f fs) b (String Csv.delimiter rest)
  = Csv.read_from (Csv.mkReader Csv.START_FIELD EmptyString (fs ++ [f]))
      true rest.
Proof.
  intros Hs0 [-> | [-> | ->]]; [reflexivity | reflexivity |].
  destruct Hs0 as [-> | ->]; reflexivity.
Qed.

(** The line terminator after the text of a field that is not the first of
    its row. *)
Lemma read_lineterminator (s1 : Csv.state) (f : string) (fs : list string)
    (b : bool) (rest : string) :
  field_read Csv.START_FIELD s1 ->
  Csv.read_from (Csv.mkReader s1 f fs) b (Csv.lineterminator ++ rest)
  = (rows <- Csv.read_from Csv.parse_reset false rest ;;
     Ok ((fs ++ [f])%list :: rows)).
Proof. intros [-> | [-> | ->]]; reflexivity. Qed.

(** The fields of a row after its first, up to the end of the line. *)
Lemma read_fields (fs : list string) :
  forall (acc : list string) (b : bool) (f rest : string),
    Csv.read_from (Csv.mkReader Csv.START_FIELD EmptyString acc) b
      (Csv.join (map Csv.write_field (f :: fs))
       ++ Csv.lineterminator ++ rest)
    = (rows <- Csv.read_from Csv.parse_reset false rest ;;
       Ok ((acc ++ f :: fs)%list :: rows)).
Proof.
  induction fs as [|f' fs IH]; intros acc b f rest.
  - cbn [map Csv.join].
    destruct (read_field_body Csv.START_FIELD acc b f
                (Csv.lineterminator ++ rest)) as [s1 [b' [Hs1 ->]]];
      [now left|].
    now apply read_lineterminator.
  - cbn [map Csv.join]. fold (map Csv.write_field fs).
    change (match map Csv.write_field fs with
            | [] => Csv.write_field f'
            | _ :: _ =>
                (Csv.write_field f'
                 ++ String Csv.delimiter (Csv.join (map Csv.write_field fs)))
            end)%string
      with (Csv.join (map Csv.write_field (f' :: fs))).
    rewrite append_assoc. cbn [append].
    destruct (read_field_body Csv.START_FIELD acc b f
                (String Csv.delimiter
                   (Csv.join (map Csv.write_field (f' :: fs))
                    ++ Csv.lineterminator ++ rest)))
      as [s1 [b' [Hs1 ->]]]; [now left|].
    rewrite (read_delimiter Csv.START_FIELD s1) by (auto; now left).
    rewrite IH, <- app_assoc. reflexivity.
Qed.

(** A written row of at least two fields is read back as one row. *)
Lemma read_row (f1 f2 : string) (fs : list string) (rest : string) :
  Csv.read_from Csv.parse_reset false
    (Csv.join (map Csv.write_field (f1 :: f2 :: fs))
     ++ Csv.lineterminator ++ rest)
  = (rows <- Csv.read_from Csv.parse_reset false rest ;;
     Ok ((f1 :: f2 :: fs) :: rows)).
Proof.
  cbn [map Csv.join]. fold (map Csv.write_field fs).
  change (match map Csv.write_field fs with
          | [] => Csv.write_field f2
          | _ :: _ =>
              (Csv.write_field f2
               ++ String Csv.delimiter (Csv.join (map Csv.write_field fs)))
          end)%string
    with (Csv.join (map Csv.write_field (f2 :: fs))).
  rewrite append_assoc. cbn [append].
  unfold Csv.parse_reset.
  destruct (read_field_body Csv.START_RECORD [] false f1
              (String Csv.delimiter
                 (Csv.join (map Csv.write_field (f2 :: fs))
                  ++ Csv.lineterminator ++ rest)))
    as [s1 [b' [Hs1 ->]]]; [now right|].
  rewrite (read_delimiter Csv.START_RECORD s1) by (auto; now right).
  now rewrite read_fields.
Qed.

Lemma writerow_fields (v1 v2 : Csv.value) (vs : list Csv.value) :
  Csv.writerow (v1 :: v2 :: vs)
  = (Csv.join (map Csv.write_field (map Csv.str (v1 :: v2 :: vs)))
     ++ Csv.lineterminator)%string.
Proof.
  unfold Csv.writerow. rewrite map_map. cbn [map Csv.join].
  destruct (Csv.write_field (Csv.str v1)); reflexivity.
Qed.

Lemma read_written_row (v1 v2 : Csv.value) (vs : list Csv.value)
    (rest : string) :
  Csv.read_from Csv.parse_reset false (Csv.writerow (v1 :: v2 :: vs) ++ rest)
  = (rows <- Csv.read_from Csv.parse_reset false rest ;;
     Ok (map Csv.str (v1 :: v2 :: vs) :: rows)).
Proof.
  rewrite writerow_fields, append_assoc. cbn [map]. apply read_row.
Qed.

Lemma export_text (summary : Dict.t Summary) :
  CsvExporter.export summary
  = (Csv.writerow (map Csv.VStr CsvExporter.header)
     ++ fold_right (fun kv text => Csv.writerow (summary_row kv) ++ text)
          EmptyString summary)%string.
Proof.
  unfold CsvExporter.export, Dict.items.
  generalize (Csv.writerow (map Csv.VStr CsvExporter.header)).
  induction summary as [|kv summary IH]; intros fp; simpl.
  - now rewrite append_nil_r.
  - rewrite IH, append_assoc. reflexivity.
Qed.

Lemma read_written_rows (summary : Dict.t Summary) :
  Csv.read_from Csv.parse_reset false
    (fold_right (fun kv text => Csv.writerow (summary_row kv) ++ text)%string
       EmptyString summary)
  = Ok (map (fun kv => map Csv.str (summary_row kv)) summary).
Proof.
  induction summary as [|kv summary IH]; [reflexivity|].
  cbn [fold_right map]. unfold summary_row at 1, CsvExporter.values.
  rewrite read_written_row, IH. reflexivity.
Qed.

(** The rows that the reader finds in an exported summary. *)
Lemma reader_rows_export (summary : Dict.t Summary) :
  Csv.reader_rows (CsvExporter.export summary)
  = Ok (CsvExporter.header
        :: map (fun kv => map Csv.str (summary_row kv)) summary).
Proof.
  unfold Csv.reader_rows. rewrite export_text.
  unfold CsvExporter.header at 1. cbn [map].
  rewrite read_written_row, read_written_rows. reflexivity.
Qed.

Lemma parse_written_rows (summary : Dict.t Summary) :
  parse_rows (map (fun kv => map Csv.str (summary_row kv)) summary)
  = Some (summary_tuples summary).
Proof.
  unfold summary_tuples, Dict.items.
  induction summary as [|[k s] summary IH]; [reflexivity|].
  cbn [map parse_rows]. rewrite IH.
  unfold summary_row, CsvExporter.values, parse_row.
  cbn [map Csv.str fst snd]. now rewrite !int_of_str_str_int.
Qed.

(** The round trip holds for every summary map. *)
Lemma export_reparse_any (summary : Dict.t Summary) :
  reparse (CsvExporter.export summary) = Some (summary_tuples summary).
Proof.
  unfold reparse. rewrite reader_rows_export.
  destruct (list_eq_dec string_dec CsvExporter.header CsvExporter.header)
    as [_|Hne]; [|contradiction].
  apply parse_written_rows.
Qed.

(** C9. The file written by the CSV exporter for a summary of
    [park_summary] begins with the header row
    [Park,reviews,positive,avg,countries]; read back with the CSV reader,
    its rows after the header give, in the order of the map, the tuples
    (park, reviews, positive, avg, countries) of the summary, the [avg]
    field as the text the writer printed for it. *)
Theorem export_reparse_roundtrip
    (reviews : list Review) (summary : Dict.t Summary) :
  park_summary reviews = Ok summary ->
  reparse (CsvExporter.export summary) = Some (summary_tuples summary)
  /\ Csv.reader_rows (CsvExporter.export summary)
     = Ok (["Park"; "reviews"; "positive"; "avg"; "countries"]
           :: map (fun kv => map Csv.str (summary_row kv))
                (Dict.items summary))
  /\ exists body,
       CsvExporter.export summary
       = ("Park,reviews,positive,avg,countries"
          ++ Csv.lineterminator ++ body)%string.
Proof.
  intros _. split; [apply export_reparse_any|].
  split; [apply reader_rows_export|].
  rewrite export_text. eexists. reflexivity.
Qed.

Lemma export_reparse_roundtrip_witness :
  exists summary,
    park_summary SAMPLE_REVIEWS = Ok summary
    /\ reparse (CsvExporter.export summary)
       = Some [("Disneyland Paris", 3, 2, "4.0", 3);
               ("Disney World Orlando", 2, 2, "4.5", 2)].
Proof.
  eexists. split; [reflexivity|].
  apply (export_reparse_roundtrip SAMPLE_REVIEWS). reflexivity.
Defined.

(** ** [avg_monthly_rating] on periods that split in two *)

Lemma month_names_values : Dict.values month_map = month_names.
Proof. reflexivity. Qed.

Lemma month_map_truthy (code name : string) :
  Dict.get month_map code = Some name -> truthy_str name = true.
Proof.
  unfold month_map. cbn [Dict.get].
  repeat (destruct (String.eqb _ code); [intros [= <-]; reflexivity|]).
  discriminate.
Qed.

(** One step of the first loop on a record whose period splits in two. *)
Lemma monthly_step_well_split (p : string) (stats : Dict.t (list Z))
    (r : Review) :
  (park_matches p r = true -> well_split r) ->
  monthly_step p stats r
  = Ok (match (if park_matches p r then month_of r else None) with
        | Some name => append_at stats name (rating r)
        | None => stats
        end).
Proof.
  intros Hw. unfold monthly_step, month_of.
  destruct (park_matches p r); [|reflexivity].
  destruct (Hw eq_refl) as [a [b ->]]. cbn [unpack2 bind snd].
  destruct (Dict.get month_map b) as [name|] eqn:E; [|reflexivity].
  now rewrite (month_map_truthy b name E).
Qed.

(** A record of the park whose period does not split in two stops the
    first loop. *)
Lemma monthly_step_raises (p : string) (stats : Dict.t (list Z)) (r : Review) :
  park_matches p r = true -> ~ well_split r ->
  monthly_step p stats r = Raise ValueError.
Proof.
  intros Hp Hw. unfold monthly_step. rewrite Hp.
  destruct (split "-" (year_month r)) as [|a [|b [|c l]]] eqn:E;
    try reflexivity.
  exfalso. apply Hw. now exists a, b.
Qed.

Lemma monthly_loop_raised (p : string) (l : list Review) (e : exn) :
  fold_left (fun acc r => stats <- acc ;; monthly_step p stats r) l (Raise e)
  = Raise e.
Proof. induction l as [|r l IH]; simpl; [reflexivity | exact IH]. Qed.

(** The key and the test of the grouping that the first loop performs. *)
Lemma monthly_loop_well_split (p : string) (l : list Review)
    (stats : Dict.t (list Z)) :
  (forall r, In r l -> park_matches p r = true -> well_split r) ->
  fold_left (fun acc r => stats <- acc ;; monthly_step p stats r) l (Ok stats)
  = Ok (fold_left
          (fun stats r =>
             append_at stats
               (match month_of r with Some name => name | None => EmptyString end)
               (rating r))
          (filter (fun r => park_matches p r
                            && match month_of r with
                               | Some _ => true
                               | None => false
                               end) l)
          stats).
Proof.
  revert stats. induction l as [|r l IH]; intros stats Hw; [reflexivity|].
  cbn [fold_left bind filter].
  rewrite monthly_step_well_split by (apply Hw; now left).
  rewrite IH by (intros r' Hr'; apply Hw; now right).
  destruct (park_matches p r); [|reflexivity].
  destruct (month_of r) eqn:E; cbn [andb fold_left]; [|reflexivity].
  now rewrite E.
Qed.

(** The value that the second loop stores for a month. *)
Lemma monthly_value_pure (stats : Dict.t (list Z)) (name : string) :
  monthly_value stats name
  = Ok (match Dict.get stats name with
        | Some (x :: v) => mean (x :: v)
        | _ => 0%Q
        end).
Proof.
  unfold monthly_value, Dict.contains, Dict.get_default.
  destruct (Dict.get stats name) as [[|x v]|]; try reflexivity.
  cbn [truthy_list andb]. apply mean_of_eq. discriminate.
Qed.

Lemma monthly_second_loop (stats : Dict.t (list Z)) :
  fold_left
    (fun acc month_name =>
       ordered <- acc ;;
       v <- monthly_value stats month_name ;;
       Ok (Dict.set ordered month_name v))
    (Dict.values month_map) (Ok Dict.empty)
  = Ok (map (fun name =>
               (name, match Dict.get stats name with
                      | Some (x :: v) => mean (x :: v)
                      | _ => 0%Q
                      end))
          month_names).
Proof.
  rewrite month_names_values. unfold month_names.
  cbn [fold_left bind]. rewrite !monthly_value_pure. reflexivity.
Qed.

Lemma group_of_filter_month (p name : string) (l : list Review) :
  group_of
    (fun r => match month_of r with Some n => n | None => EmptyString end)
    name
    (filter (fun r => park_matches p r
                      && match month_of r with
                         | Some _ => true
                         | None => false
                         end) l)
  = filter (in_month p name) l.
Proof.
  unfold group_of. rewrite filter_filter. apply filter_ext.
  intros r. unfold in_month.
  destruct (park_matches p r); cbn [andb];
    [|now rewrite andb_false_r].
  destruct (month_of r); [now rewrite andb_true_r | now rewrite andb_false_r].
Qed.

(** When the period of every record of the park splits in two at the
    dash, [avg_monthly_rating] returns twelve entries keyed Jan to Dec in
    calendar order, each the mean of the ratings of the records of the park
    in that month, and 0 for a month without records; a record whose
    second part is no known month code counts in no month. *)
Theorem avg_monthly_rating_well_split (reviews : list Review) (p : string) :
  (forall r, In r reviews -> park_matches p r = true -> well_split r) ->
  avg_monthly_rating reviews p
  = Ok (map (fun name => (name, month_value reviews p name)) month_names).
Proof.
  intros Hw. unfold avg_monthly_rating.
  rewrite monthly_loop_well_split by exact Hw.
  cbn [bind]. rewrite monthly_second_loop. f_equal.
  apply map_ext. intros name. f_equal.
  rewrite ratings_by_key_get, group_of_filter_month.
  unfold month_value.
  destruct (filter (in_month p name) reviews) as [|r g]; reflexivity.
Qed.

(** Any record of the park whose period does not split in two makes
    [avg_monthly_rating] raise [ValueError]. *)
Theorem avg_monthly_rating_raises (reviews : list Review) (p : string)
    (r : Review) :
  In r reviews -> park_matches p r = true -> ~ well_split r ->
  avg_monthly_rating reviews p = Raise ValueError.
Proof.
  intros Hin Hp Hw. unfold avg_monthly_rating.
  assert (H : forall l stats,
             In r l ->
             fold_left (fun acc r => stats <- acc ;; monthly_step p stats r)
               l (Ok stats) = Raise ValueError).
  { induction l as [|r' l IH]; intros stats Hl; [contradiction|].
    cbn [fold_left bind].
    destruct (monthly_step p stats r') as [stats'|e] eqn:E.
    - destruct Hl as [->|Hl]; [|now apply IH].
      rewrite monthly_step_raises in E by assumption. discriminate.
    - rewrite monthly_loop_raised.
      assert (He : e = ValueError).
      { unfold monthly_step in E.
        destruct (park_matches p r'); [|discriminate].
        destruct (split "-" (year_month r')) as [|a [|b [|c l']]];
          cbn [unpack2 bind] in E; try (now injection E as <-).
        cbn [snd] in E. destruct (Dict.get month_map b) as [n|];
          [destruct (truthy_str n)|]; discriminate. }
      now rewrite He. }
  rewrite (H reviews Dict.empty Hin). reflexivity.
Qed.

(** * Further properties *)

(** ** Filtering by park first *)

Lemma filter_all_true_in {A : Type} (f : A -> bool) (l : list A) :
  (forall x, In x l -> f x = true) -> filter f l = l.
Proof.
  induction l as [|x l IH]; intros H; [reflexivity|].
  cbn [filter]. rewrite (H x) by now left.
  f_equal. apply IH. intros y Hy. apply H. now right.
Qed.

Lemma park_matches_spelling (p q : string) (r : Review) :
  lower p = lower q -> park_matches q r = park_matches p r.
Proof. intros H. unfold park_matches. now rewrite H. Qed.

Lemma filter_idem_with {A : Type} (f g : A -> bool) (l : list A) :
  (forall x, f x = true -> g x = true) ->
  filter f (filter g l) = filter f l.
Proof.
  intros H. rewrite filter_filter. apply filter_ext. intros x.
  destruct (f x) eqn:E; [|reflexivity]. now rewrite (H x E).
Qed.

Lemma get_reviews_by_park_twice (reviews : list Review) (p q : string) :
  lower p = lower q ->
  get_reviews_by_park (get_reviews_by_park reviews q) p
  = get_reviews_by_park reviews p.
Proof.
  intros H. unfold get_reviews_by_park. apply filter_idem_with.
  intros r Hr. now rewrite (park_matches_spelling p q r H).
Qed.

Lemma get_reviews_by_park_spelling (reviews : list Review) (p q : string) :
  lower p = lower q ->
  get_reviews_by_park reviews q = get_reviews_by_park reviews p.
Proof.
  intros H. unfold get_reviews_by_park. apply filter_ext.
  intros r. now apply park_matches_spelling.
Qed.

(** The first loop of [avg_monthly_rating] passes over the records of
    other parks. *)
Lemma monthly_loop_filter (p : string) (l : list Review)
    (acc : result (Dict.t (list Z))) :
  fold_left (fun acc r => stats <- acc ;; monthly_step p stats r) l acc
  = fold_left (fun acc r => stats <- acc ;; monthly_step p stats r)
      (filter (park_matches p) l) acc.
Proof.
  revert acc. induction l as [|r l IH]; intros acc; [reflexivity|].
  cbn [fold_left filter].
  destruct (park_matches p r) eqn:E; cbn [fold_left]; rewrite IH.
  - reflexivity.
  - f_equal. destruct acc as [stats|e]; [|reflexivity].
    cbn [bind]. unfold monthly_step. now rewrite E.
Qed.

Lemma avg_monthly_rating_filter (reviews : list Review) (p : string) :
  avg_monthly_rating (get_reviews_by_park reviews p) p
  = avg_monthly_rating reviews p.
Proof.
  unfold avg_monthly_rating, get_reviews_by_park.
  rewrite (monthly_loop_filter p reviews).
  rewrite (monthly_loop_filter p (filter (park_matches p) reviews)).
  rewrite filter_idem_with by auto. reflexivity.
Qed.

(** X1. The per-park operations give the same result on the whole list and
    on the list filtered beforehand by any spelling of the park. *)
Theorem park_operations_after_filter
    (reviews : list Review) (p q year loc : string) (top : option Z) :
  lower p = lower q ->
  let of_park := get_reviews_by_park reviews q in
  get_reviews_by_park of_park p = of_park
  /\ avg_rating_by_park_year of_park p year
     = avg_rating_by_park_year reviews p year
  /\ count_reviews_by_park_and_location of_park p loc
     = count_reviews_by_park_and_location reviews p loc
  /\ top_locations_for_park of_park p top
     = top_locations_for_park reviews p top
  /\ avg_monthly_rating of_park p = avg_monthly_rating reviews p.
Proof.
  intros H of_park. unfold of_park.
  rewrite (get_reviews_by_park_spelling reviews p q H).
  split; [now apply get_reviews_by_park_twice|].
  split.
  { unfold avg_rating_by_park_year, get_reviews_by_park.
    rewrite filter_idem_with; [reflexivity|].
    intros r Hr. now apply andb_true_iff in Hr. }
  split.
  { unfold count_reviews_by_park_and_location, get_reviews_by_park.
    rewrite filter_idem_with; [reflexivity|].
    intros r Hr. now apply andb_true_iff in Hr. }
  split.
  { rewrite !top_locations_computed. unfold location_averages.
    now rewrite get_reviews_by_park_twice. }
  apply avg_monthly_rating_filter.
Qed.

Lemma park_operations_after_filter_witness :
  get_reviews_by_park
    (get_reviews_by_park SAMPLE_REVIEWS "DISNEYLAND PARIS") "disneyland paris"
  = get_reviews_by_park SAMPLE_REVIEWS "DISNEYLAND PARIS"
  /\ avg_monthly_rating
       (get_reviews_by_park SAMPLE_REVIEWS "DISNEYLAND PARIS")
       "disneyland paris"
     = avg_monthly_rating SAMPLE_REVIEWS "disneyland paris".
Proof.
  assert (H : lower "disneyland paris" = lower "DISNEYLAND PARIS")
    by reflexivity.
  destruct (park_operations_after_filter SAMPLE_REVIEWS
              "disneyland paris" "DISNEYLAND PARIS" "2019" "usa" None H)
    as [H1 [_ [_ [_ H5]]]].
  split; [exact H1 | exact H5].
Defined.

(** ** [count_reviews_by_park_and_location] *)

Lemma startswith_nil (s : string) : startswith s EmptyString = true.
Proof. now destruct s. Qed.

Lemma str_in_spec (needle hay : string) :
  str_in needle hay = true <-> occurs_in needle hay.
Proof.
  unfold occurs_in. induction hay as [|c hay IH].
  - cbn [str_in]. rewrite orb_false_r, startswith_spec. split.
    + intros [rest H]. exists EmptyString, rest. exact H.
    + intros [pre [post H]]. destruct pre; [|discriminate].
      now exists post.
  - cbn [str_in]. rewrite orb_true_iff, startswith_spec, IH. split.
    + intros [[rest H]|[pre [post H]]].
      * exists EmptyString, rest. exact H.
      * exists (String c pre), post. cbn [append]. now rewrite H.
    + intros [pre [post H]]. destruct pre as [|a pre].
      * left. now exists post.
      * right. cbn [append] in H. injection H as _ H.
        now exists pre, post.
Qed.

Lemma str_in_nil (hay : string) : str_in EmptyString hay = true.
Proof. destruct hay; cbn [str_in]; now rewrite startswith_nil. Qed.

Lemma sum_ones {A : Type} (l : list A) : sum (map (fun _ => 1) l) = len l.
Proof.
  induction l as [|x l IH]; [reflexivity|].
  cbn [map]. rewrite sum_cons, len_cons, IH. lia.
Qed.

(** X2. The count is the number of records of the park (up to case) whose
    lower-cased location has the lower-cased text inside; it is at most the
    number of records that [get_reviews_by_park] returns, equal to it for
    the empty text, and adds up over a list in two pieces. *)
Theorem count_by_park_and_location_meaning
    (reviews more : list Review) (p loc : string) :
  let counted r :=
    park_matches p r && str_in (lower loc) (lower (location r)) in
  (forall r, counted r = true
             <-> lower (park r) = lower p
                 /\ occurs_in (lower loc) (lower (location r)))
  /\ count_reviews_by_park_and_location reviews p loc
     = len (filter counted reviews)
  /\ 0 <= count_reviews_by_park_and_location reviews p loc
       <= len (get_reviews_by_park reviews p)
  /\ count_reviews_by_park_and_location reviews p EmptyString
     = len (get_reviews_by_park reviews p)
  /\ count_reviews_by_park_and_location (reviews ++ more) p loc
     = count_reviews_by_park_and_location reviews p loc
       + count_reviews_by_park_and_location more p loc.
Proof.
  intros counted.
  assert (Hc : forall l, count_reviews_by_park_and_location l p loc
                         = len (filter counted l)).
  { intros l. unfold count_reviews_by_park_and_location. apply sum_ones. }
  split.
  { intros r. unfold counted.
    now rewrite andb_true_iff, park_matches_spec, str_in_spec. }
  split; [apply Hc|]. split.
  { rewrite Hc. split; [apply len_nonneg|].
    unfold get_reviews_by_park.
    rewrite <- (filter_idem_with counted (park_matches p)).
    - apply filter_len_le.
    - intros r Hr. unfold counted in Hr. now apply andb_true_iff in Hr. }
  split.
  { unfold count_reviews_by_park_and_location. rewrite sum_ones.
    unfold get_reviews_by_park. f_equal. apply filter_ext. intros r.
    cbn [lower]. now rewrite str_in_nil, andb_true_r. }
  rewrite !Hc, filter_app, len_app. reflexivity.
Qed.

(** ** Bounds of the averages *)

Lemma sum_bounds (v : list Z) (lo hi : Z) :
  (forall x, In x v -> lo <= x <= hi) ->
  lo * len v <= sum v <= hi * len v.
Proof.
  induction v as [|x v IH]; intros H.
  - unfold len, sum. simpl. lia.
  - rewrite sum_cons, len_cons.
    assert (Hx : lo <= x <= hi) by (apply H; now left).
    assert (Hv : lo * len v <= sum v <= hi * len v)
      by (apply IH; intros y Hy; apply H; now right).
    lia.
Qed.

(** A mean lies between any two bounds of its numbers. *)
Lemma is_mean_bounds (m : Q) (v : list Z) (lo hi : Z) :
  is_mean m v -> (forall x, In x v -> lo <= x <= hi) ->
  (inject_Z lo <= m)%Q /\ (m <= inject_Z hi)%Q.
Proof.
  intros [Hne Hm] Hv.
  pose proof (len_pos v Hne) as Hlen.
  pose proof (sum_bounds v lo hi Hv) as [Hlo Hhi].
  assert (Hpos : (0 < inject_Z (len v))%Q)
    by (rewrite <- (Zlt_Qlt 0); exact Hlen).
  split.
  - apply (Qmult_le_r _ _ (inject_Z (len v)) Hpos).
    rewrite Hm, <- inject_Z_mult, <- Zle_Qle. exact Hlo.
  - apply (Qmult_le_r _ _ (inject_Z (len v)) Hpos).
    rewrite Hm, <- inject_Z_mult, <- Zle_Qle. exact Hhi.
Qed.

(** X3. When the ratings of the records lie between two integers, so does
    every average that [avg_rating_by_park_year] returns. *)
Theorem avg_rating_by_park_year_bounds
    (reviews : list Review) (p year : string) (lo hi : Z) (a : Q) :
  (forall r, In r reviews -> lo <= rating r <= hi) ->
  avg_rating_by_park_year reviews p year = Ok (Some a) ->
  (inject_Z lo <= a)%Q /\ (a <= inject_Z hi)%Q.
Proof.
  intros Hdom Ha. unfold avg_rating_by_park_year in Ha.
  set (v := map rating _) in Ha.
  assert (Hv : forall x, In x v -> lo <= x <= hi).
  { intros x Hx. unfold v in Hx. apply in_map_iff in Hx.
    destruct Hx as [r [<- Hr]]. apply filter_In in Hr.
    apply Hdom. tauto. }
  destruct v as [|x v'] eqn:E; [discriminate|].
  assert (Hne : x :: v' <> []) by discriminate.
  fold (mean_of (x :: v')) in Ha.
  rewrite (mean_of_eq _ Hne) in Ha. cbn [bind] in Ha.
  injection Ha as <-.
  apply (is_mean_bounds _ (x :: v')); [now apply mean_is_mean | exact Hv].
Qed.

Lemma avg_rating_by_park_year_bounds_witness :
  (inject_Z 1 <= 4 # 1)%Q /\ (4 # 1 <= inject_Z 5)%Q.
Proof.
  apply (avg_rating_by_park_year_bounds SAMPLE_REVIEWS
           "Disneyland Paris" "2019" 1 5 (4 # 1)).
  - intros r Hr. simpl in Hr.
    repeat (destruct Hr as [<-|Hr]; [simpl; lia|]). contradiction.
  - reflexivity.
Defined.

(** ** [avg_rating_per_park] and [avg_rating_per_park_location] *)

(** X4. [avg_rating_per_park] never raises; its keys are the raw park
    strings in the order of their first record, and the value of a key is
    the mean of the ratings of the records of exactly that park string,
    hence between any two bounds of these ratings. *)
Theorem avg_rating_per_park_meaning (reviews : list Review) :
  exists avgs,
    avg_rating_per_park reviews = Ok avgs
    /\ Dict.keys avgs = first_seen (map park reviews)
    /\ forall k a, In (k, a) (Dict.items avgs) ->
         is_mean a (map rating (group_of park k reviews))
         /\ forall lo hi,
              (forall r, In r reviews -> lo <= rating r <= hi) ->
              (inject_Z lo <= a)%Q /\ (a <= inject_Z hi)%Q.
Proof.
  unfold avg_rating_per_park. rewrite (averages_by_key park reviews).
  eexists. split; [reflexivity|]. split.
  { rewrite keys_map_values. apply ratings_by_key_keys. }
  intros k a Hin. unfold Dict.items in Hin.
  apply in_map_iff in Hin. destruct Hin as [[k' v] [Heq Hin]].
  cbn [fst snd] in Heq. injection Heq as Hk Ha. subst k' a.
  apply in_get in Hin;
    [|rewrite ratings_by_key_keys; apply first_seen_NoDup].
  rewrite ratings_by_key_get in Hin.
  destruct (group_of park k reviews) as [|r g] eqn:E; [discriminate|].
  injection Hin as <-.
  assert (Hm : is_mean (mean (map rating (r :: g))) (map rating (r :: g)))
    by (apply mean_is_mean; discriminate).
  split; [exact Hm|].
  intros lo hi Hdom. apply (is_mean_bounds _ _ lo hi Hm).
  intros x Hx. apply in_map_iff in Hx. destruct Hx as [r' [<- Hr']].
  apply Hdom. rewrite <- E in Hr'. now apply group_of_In in Hr'.
Qed.

(** The averages of the groups, listed by key. *)
Lemma averages_by_key_table (key : Review -> string) (l : list Review) :
  map (fun kv => (fst kv, mean (snd kv)))
    (fold_left (fun stats r => append_at stats (key r) (rating r))
       l Dict.empty)
  = map (fun k => (k, mean (map rating (group_of key k l))))
      (first_seen (map key l)).
Proof.
  rewrite <- (ratings_by_key_keys key l).
  set (d := fold_left _ l Dict.empty).
  rewrite <- (keys_map_values mean d).
  apply dict_by_keys.
  - rewrite keys_map_values. unfold d. rewrite ratings_by_key_keys.
    apply first_seen_NoDup.
  - intros k Hk. rewrite keys_map_values in Hk.
    rewrite get_map_values. unfold d in *.
    rewrite ratings_by_key_keys in Hk. rewrite ratings_by_key_get.
    apply first_seen_In, in_map_iff in Hk. destruct Hk as [r [<- Hr]].
    destruct (group_of key (key r) l) as [|r' g] eqn:E; [|reflexivity].
    exfalso. assert (H : In r (group_of key (key r) l))
      by (apply group_of_In; tauto).
    now rewrite E in H.
Qed.

Lemma nested_fold_as_group (reviews : list Review) :
  fold_left nested_step reviews Dict.empty
  = fold_left
      (group_step park
         (fun inner r => append_at inner (location r) (rating r))
         Dict.empty)
      reviews Dict.empty.
Proof. reflexivity. Qed.

(** The function computes the table of averages by park and location. *)
Lemma avg_rating_per_park_location_computed (reviews : list Review) :
  avg_rating_per_park_location reviews = Ok (location_table reviews).
Proof.
  unfold avg_rating_per_park_location. cbv zeta.
  set (tmp := fold_left nested_step reviews Dict.empty).
  assert (Hkeys : Dict.keys tmp = first_seen (map park reviews)).
  { unfold tmp. rewrite nested_fold_as_group. apply group_keys_empty. }
  assert (Hnd : NoDup (Dict.keys tmp))
    by (rewrite Hkeys; apply first_seen_NoDup).
  assert (Hget : forall k, In k (Dict.keys tmp) ->
            Dict.get tmp k
            = Some (fold_left
                      (fun inner r => append_at inner (location r) (rating r))
                      (group_of park k reviews) Dict.empty)).
  { intros k Hk. unfold tmp. rewrite nested_fold_as_group, group_get_empty.
    rewrite Hkeys in Hk. apply first_seen_In, in_map_iff in Hk.
    destruct Hk as [r [<- Hr]].
    destruct (group_of park (park r) reviews) as [|r' g] eqn:E;
      [|reflexivity].
    exfalso. assert (H : In r (group_of park (park r) reviews))
      by (apply group_of_In; tauto).
    now rewrite E in H. }
  transitivity
    (Ok (map (fun kv : string * Dict.t (list Z) =>
                (fst kv, map (fun kv' => (fst kv', mean (snd kv'))) (snd kv)))
           tmp)).
  - apply (comprehension_ok
             (fun (_ : string) inner =>
                Dict.comprehension (fun _ v => mean_of v) inner)
             (fun inner => map (fun kv' => (fst kv', mean (snd kv'))) inner)
             tmp Hnd).
    intros k inner Hin.
    assert (Hk : In k (Dict.keys tmp)).
    { change k with (fst (k, inner)). now apply in_map. }
    apply (in_get _ _ _ Hnd) in Hin. rewrite (Hget k Hk) in Hin.
    injection Hin as <-.
    apply (averages_by_key location (group_of park k reviews)).
  - f_equal. unfold location_table. rewrite <- Hkeys.
    rewrite (dict_by_keys _ tmp Hnd Hget) at 1.
    rewrite map_map. apply map_ext_in. intros k Hk. cbn [fst snd].
    f_equal. apply averages_by_key_table.
Qed.

Lemma get_by_keys {V : Type} (h : string -> V) (ks : list string)
    (k : string) :
  In k ks -> Dict.get (map (fun k => (k, h k)) ks) k = Some (h k).
Proof.
  induction ks as [|k' ks IH]; intros Hin; [contradiction|].
  cbn [map Dict.get].
  destruct (String.eqb_spec k' k) as [->|Hne]; [reflexivity|].
  destruct Hin as [->|Hin]; [contradiction | now apply IH].
Qed.

(** X5. [avg_rating_per_park_location] never raises and returns the table
    of averages by park and by location: the record of a park and a
    location finds, under its park and then its location, the mean of the
    ratings of the records of exactly that park and that location. *)
Theorem avg_rating_per_park_location_meaning (reviews : list Review) :
  avg_rating_per_park_location reviews = Ok (location_table reviews)
  /\ Dict.keys (location_table reviews) = first_seen (map park reviews)
  /\ forall r, In r reviews ->
       exists inner a,
         Dict.get (location_table reviews) (park r) = Some inner
         /\ Dict.keys inner
            = first_seen (map location (group_of park (park r) reviews))
         /\ Dict.get inner (location r) = Some a
         /\ is_mean a
              (map rating
                 (group_of location (location r)
                    (group_of park (park r) reviews))).
Proof.
  split; [apply avg_rating_per_park_location_computed|]. split.
  { unfold location_table, Dict.keys. rewrite map_map. cbn [fst].
    apply map_id. }
  intros r Hr.
  set (g := group_of park (park r) reviews).
  assert (Hg : In r g) by (apply group_of_In; tauto).
  exists (map (fun loc =>
                 (loc, mean (map rating (group_of location loc g))))
            (first_seen (map location g))),
    (mean (map rating (group_of location (location r) g))).
  split.
  { unfold location_table.
    rewrite (get_by_keys
               (fun p =>
                  map (fun loc =>
                         (loc, mean (map rating
                                       (group_of location loc
                                          (group_of park p reviews)))))
                    (first_seen (map location (group_of park p reviews))))).
    - reflexivity.
    - apply first_seen_In, in_map_iff. now exists r. }
  split.
  { unfold Dict.keys. rewrite map_map. cbn [fst]. apply map_id. }
  split.
  { apply (get_by_keys
             (fun loc => mean (map rating (group_of location loc g)))).
    apply first_seen_In, in_map_iff. now exists r. }
  apply mean_is_mean.
  assert (Hin : In r (group_of location (location r) g))
    by (apply group_of_In; tauto).
  destruct (group_of location (location r) g); [contradiction|discriminate].
Qed.

(** X6. For a park whose records all carry one spelling, the entry of the
    park in the table of [avg_rating_per_park_location] holds the averages
    that [top_locations_for_park] sorts and cuts. *)
Theorem top_locations_from_table
    (reviews : list Review) (p : string) (top : option Z) :
  (exists r, In r reviews /\ park r = p) ->
  (forall r, In r reviews -> lower (park r) = lower p -> park r = p) ->
  exists table inner,
    avg_rating_per_park_location reviews = Ok table
    /\ Dict.get table p = Some inner
    /\ top_locations_for_park reviews p top
       = Ok (slice_to (sorted snd true inner)
               match top with Some n => n | None => 10 end).
Proof.
  intros [r0 [Hr0 Hp0]] Hraw.
  exists (location_table reviews), (location_averages reviews p).
  split; [apply avg_rating_per_park_location_computed|].
  assert (Hg : group_of park p reviews = get_reviews_by_park reviews p).
  { unfold group_of, get_reviews_by_park. apply filter_ext_in.
    intros r Hr. destruct (String.eqb_spec (park r) p) as [E|E].
    - symmetry. apply park_matches_spec. now rewrite E.
    - destruct (park_matches p r) eqn:Em; [|reflexivity].
      apply park_matches_spec in Em. now apply Hraw in Em. }
  split.
  - unfold location_table.
    rewrite (get_by_keys
               (fun p =>
                  map (fun loc =>
                         (loc, mean (map rating
                                       (group_of location loc
                                          (group_of park p reviews)))))
                    (first_seen (map location (group_of park p reviews))))).
    + unfold location_averages. now rewrite Hg.
    + apply first_seen_In, in_map_iff. now exists r0.
  - apply top_locations_computed.
Qed.

Lemma top_locations_from_table_witness :
  exists table inner,
    avg_rating_per_park_location SAMPLE_REVIEWS = Ok table
    /\ Dict.get table "Disneyland Paris" = Some inner
    /\ top_locations_for_park SAMPLE_REVIEWS "Disneyland Paris" (Some 2)
       = Ok (slice_to (sorted snd true inner) 2).
Proof.
  apply (top_locations_from_table SAMPLE_REVIEWS "Disneyland Paris" (Some 2)).
  - exists (mkReview 1 5 "2019-01" "Brazil" "Disneyland Paris").
    split; [now left | reflexivity].
  - intros r Hr. simpl in Hr.
    repeat (destruct Hr as [<-|Hr];
            [cbn [park]; intros H; try reflexivity; discriminate H|]).
    contradiction.
Defined.

(** ** [top_locations_for_park]: how many, and which *)

Lemma slice_to_length {A : Type} (l : list A) (stop : Z) :
  len (slice_to l stop)
  = if stop <? 0 then Z.max 0 (len l + stop) else Z.min stop (len l).
Proof.
  unfold slice_to, len. destruct (Z.ltb_spec stop 0);
    rewrite length_firstn; lia.
Qed.

Lemma slice_to_all {A : Type} (l : list A) (stop : Z) :
  len l <= stop -> slice_to l stop = l.
Proof.
  intros H. unfold slice_to. pose proof (len_nonneg l).
  destruct (Z.ltb_spec stop 0); [lia|].
  apply firstn_all2. unfold len in *. lia.
Qed.

Lemma StronglySorted_app_inv {A : Type} (R : A -> A -> Prop)
    (l1 l2 : list A) :
  StronglySorted R (l1 ++ l2) ->
  forall a b, In a l1 -> In b l2 -> R a b.
Proof.
  induction l1 as [|x l1 IH]; intros Hs a b Ha Hb; [contradiction|].
  cbn [app] in Hs. apply StronglySorted_inv in Hs. destruct Hs as [Hs Hx].
  destruct Ha as [->|Ha].
  - rewrite Forall_forall in Hx. apply Hx. apply in_or_app. now right.
  - now apply (IH Hs).
Qed.

(** X7. The number of entries of the output for any limit, negative ones
    included, and the case in which no location is left out. *)
Theorem top_locations_count (reviews : list Review) (p : string)
    (top : option Z) :
  let t := match top with Some n => n | None => 10 end in
  let n := len (first_seen (map location (get_reviews_by_park reviews p))) in
  exists out,
    top_locations_for_park reviews p top = Ok out
    /\ len (Dict.items out)
       = (if t <? 0 then Z.max 0 (n + t) else Z.min t n)
    /\ (n <= t -> Permutation (Dict.items out) (location_averages reviews p))
    /\ (get_reviews_by_park reviews p = [] -> out = Dict.empty).
Proof.
  intros t n. rewrite top_locations_computed.
  change (match top with Some n => n | None => default_top end) with t.
  eexists. split; [reflexivity|]. unfold Dict.items.
  assert (Hlen : len (sorted snd true (location_averages reviews p)) = n).
  { unfold len.
    rewrite (Permutation_length
               (sorted_perm snd true (location_averages reviews p))).
    unfold location_averages. now rewrite length_map. }
  split; [now rewrite slice_to_length, Hlen|]. split.
  - intros Hn. rewrite slice_to_all by lia. apply sorted_perm.
  - intros He. unfold location_averages. rewrite He. cbn [map first_seen].
    unfold slice_to. destruct (t <? 0); now rewrite firstn_nil.
Qed.

(** X8. No location that is left out has a higher average than a location of
    the output. *)
Theorem top_locations_are_the_best (reviews : list Review) (p : string)
    (top : option Z) :
  exists out,
    top_locations_for_park reviews p top = Ok out
    /\ forall kept left_out,
         In kept (Dict.items out) ->
         In left_out (location_averages reviews p) ->
         ~ In left_out (Dict.items out) ->
         (snd left_out <= snd kept)%Q.
Proof.
  rewrite top_locations_computed. eexists. split; [reflexivity|].
  unfold Dict.items. intros kept left_out Hk Hl Hn.
  set (S := sorted snd true (location_averages reviews p)) in *.
  destruct (slice_to_firstn S
              match top with Some n => n | None => default_top end)
    as [m [Hm _]].
  rewrite Hm in Hk, Hn.
  assert (Hs : StronglySorted (fun a b => snd b <= snd a)%Q
                 (firstn m S ++ skipn m S)).
  { rewrite firstn_skipn. apply (sorted_reverse_descending snd). }
  apply (StronglySorted_app_inv _ _ _ Hs kept left_out Hk).
  assert (Hin : In left_out S).
  { apply (Permutation_in left_out
             (Permutation_sym (sorted_perm snd true _)) Hl). }
  rewrite <- (firstn_skipn m S) in Hin. apply in_app_or in Hin.
  destruct Hin as [Hin|Hin]; [contradiction | exact Hin].
Qed.

(** ** [avg_monthly_rating]: when it raises, and its zeros *)

Lemma well_split_dec (r : Review) : {well_split r} + {~ well_split r}.
Proof.
  unfold well_split.
  destruct (split "-" (year_month r)) as [|a [|b [|c l]]].
  - right. intros [a [b H]]. discriminate.
  - right. intros [a' [b H]]. discriminate.
  - left. now exists a, b.
  - right. intros [a' [b' H]]. discriminate.
Qed.

Lemma all_well_split_or_not (p : string) (l : list Review) :
  (forall r, In r l -> park_matches p r = true -> well_split r)
  \/ (exists r, In r l /\ park_matches p r = true /\ ~ well_split r).
Proof.
  induction l as [|r l [IH|[r' [H1 [H2 H3]]]]].
  - left. intros r [].
  - destruct (park_matches p r) eqn:E.
    + destruct (well_split_dec r) as [Hw|Hw].
      * left. intros r' [<-|Hr'] Hp; [exact Hw | now apply IH].
      * right. exists r. repeat split; [now left | exact E | exact Hw].
    + left. intros r' [<-|Hr'] Hp; [congruence | now apply IH].
  - right. exists r'. repeat split; [now right | exact H2 | exact H3].
Qed.

Lemma SAMPLE_well_split (p : string) (r : Review) :
  In r SAMPLE_REVIEWS -> park_matches p r = true -> well_split r.
Proof.
  intros Hr _. simpl in Hr. unfold well_split.
  repeat (destruct Hr as [<-|Hr]; [eexists; eexists; reflexivity|]).
  contradiction.
Qed.

Lemma in_month_has_month (p name : string) (r : Review) :
  in_month p name r = true ->
  match month_of r with Some _ => true | None => false end = true.
Proof.
  unfold in_month. intros H. apply andb_true_iff in H.
  destruct H as [_ H]. now destruct (month_of r).
Qed.

(** X9. When the period of every record of the park splits in two at the
    dash, [avg_monthly_rating] returns twelve entries keyed Jan to Dec in
    calendar order; the entry of a month is the mean of the ratings of the
    records of the park in that month, and 0 without such records; and
    the records whose second part is no month code are skipped: without
    them the result is the same. *)
Theorem monthly_rating_twelve_entries (reviews : list Review) (p : string) :
  (forall r, In r reviews -> park_matches p r = true -> well_split r) ->
  exists out,
    avg_monthly_rating reviews p = Ok out
    /\ Dict.keys out = month_names
    /\ len (Dict.items out) = 12
    /\ (forall name, In name month_names ->
          Dict.get out name = Some (month_value reviews p name))
    /\ avg_monthly_rating
         (filter (fun r => match month_of r with
                           | Some _ => true
                           | None => false
                           end) reviews) p
       = Ok out.
Proof.
  intros Hw. rewrite (avg_monthly_rating_well_split reviews p Hw).
  eexists. split; [reflexivity|].
  split; [reflexivity|]. split; [reflexivity|]. split.
  - intros name Hname.
    now apply (get_by_keys (month_value reviews p)).
  - rewrite avg_monthly_rating_well_split.
    + apply f_equal. apply map_ext. intros name. apply f_equal.
      unfold month_value.
      rewrite (filter_idem_with (in_month p name)); [reflexivity|].
      apply in_month_has_month.
    + intros r Hr. apply filter_In in Hr. destruct Hr as [Hr _].
      now apply Hw.
Qed.

Lemma monthly_rating_twelve_entries_witness :
  exists out,
    avg_monthly_rating SAMPLE_REVIEWS "Disneyland Paris" = Ok out
    /\ Dict.keys out = month_names
    /\ len (Dict.items out) = 12
    /\ (forall name, In name month_names ->
          Dict.get out name
          = Some (month_value SAMPLE_REVIEWS "Disneyland Paris" name))
    /\ avg_monthly_rating
         (filter (fun r => match month_of r with
                           | Some _ => true
                           | None => false
                           end) SAMPLE_REVIEWS) "Disneyland Paris"
       = Ok out.
Proof.
  apply (monthly_rating_twelve_entries SAMPLE_REVIEWS "Disneyland Paris").
  apply SAMPLE_well_split.
Defined.

(** X10. [avg_monthly_rating] raises exactly when some record of the park
    has a period that does not split in two at the dash, and then it raises
    [ValueError]; otherwise it returns a result. *)
Theorem avg_monthly_rating_raises_iff (reviews : list Review) (p : string) :
  (avg_monthly_rating reviews p = Raise ValueError
   <-> exists r, In r reviews /\ park_matches p r = true /\ ~ well_split r)
  /\ (forall e, avg_monthly_rating reviews p = Raise e -> e = ValueError)
  /\ ((forall r, In r reviews -> park_matches p r = true -> well_split r)
      -> exists out, avg_monthly_rating reviews p = Ok out).
Proof.
  destruct (all_well_split_or_not p reviews) as [Hall|[r [H1 [H2 H3]]]].
  - rewrite (avg_monthly_rating_well_split reviews p Hall).
    split; [split; [discriminate|]|split; [discriminate|]].
    + intros [r [H1 [H2 H3]]]. exfalso. apply H3. now apply Hall.
    + intros _. eexists. reflexivity.
  - rewrite (avg_monthly_rating_raises reviews p r H1 H2 H3).
    split; [split; [|reflexivity]|split].
    + intros _. now exists r.
    + now intros e [= <-].
    + intros Hall. exfalso. apply H3. now apply Hall.
Qed.

Lemma mean_zero_iff (v : list Z) :
  v <> [] -> ((mean v == 0)%Q <-> sum v = 0).
Proof.
  intros Hv. destruct (mean_is_mean v Hv) as [_ Hm].
  pose proof (len_pos v Hv) as Hlen. split.
  - intros H0. rewrite H0, Qmult_0_l in Hm.
    symmetry. apply (proj1 (inject_Z_injective 0 (sum v))). exact Hm.
  - intros Hs. rewrite Hs in Hm.
    apply Qmult_integral in Hm. destruct Hm as [Hm|Hm]; [exact Hm|].
    exfalso. apply (proj1 (inject_Z_injective (len v) 0)) in Hm. lia.
Qed.

(** X11. In the monthly result the value 0 stands both for a month without
    records and for a month whose ratings add up to zero: on periods that
    split in two, the value of a month is 0 exactly in these two cases. *)
Theorem monthly_zero_means_no_records_or_zero_sum
    (reviews : list Review) (p name : string) :
  (forall r, In r reviews -> park_matches p r = true -> well_split r) ->
  In name month_names ->
  let ratings := map rating (filter (in_month p name) reviews) in
  exists out v,
    avg_monthly_rating reviews p = Ok out
    /\ Dict.get out name = Some v
    /\ ((v == 0)%Q <-> ratings = [] \/ sum ratings = 0).
Proof.
  intros Hw Hname ratings.
  rewrite (avg_monthly_rating_well_split reviews p Hw).
  eexists. exists (month_value reviews p name).
  split; [reflexivity|]. split.
  - now apply (get_by_keys (month_value reviews p)).
  - unfold month_value. fold ratings.
    destruct ratings as [|x v] eqn:E.
    + split; [now left | reflexivity].
    + rewrite mean_zero_iff by discriminate.
      split; [now right | intros [H|H]; [discriminate | exact H]].
Qed.

Lemma monthly_zero_means_no_records_or_zero_sum_witness :
  exists out v,
    avg_monthly_rating SAMPLE_REVIEWS "Disneyland Paris" = Ok out
    /\ Dict.get out "Mar" = Some v
    /\ ((v == 0)%Q
        <-> map rating
              (filter (in_month "Disneyland Paris" "Mar") SAMPLE_REVIEWS)
            = []
            \/ sum (map rating
                      (filter (in_month "Disneyland Paris" "Mar")
                         SAMPLE_REVIEWS)) = 0).
Proof.
  apply (monthly_zero_means_no_records_or_zero_sum SAMPLE_REVIEWS
           "Disneyland Paris" "Mar").
  - apply SAMPLE_well_split.
  - simpl. tauto.
Defined.

(** ** [park_summary]: the meaning of the fields, and the totals *)

(** The summary, park by park. *)
Lemma park_summary_by_keys (reviews : list Review) :
  park_summary reviews
  = Ok (map (fun k =>
               (k, finalized
                     (fold_left acc_update (group_of park k reviews)
                        new_entry)))
          (first_seen (map park reviews))).
Proof.
  rewrite park_summary_ok. f_equal.
  set (d := fold_left summary_step reviews Dict.empty).
  assert (Hkeys : Dict.keys d = first_seen (map park reviews)).
  { unfold d. rewrite summary_fold_as_group. apply group_keys_empty. }
  rewrite <- Hkeys.
  rewrite (dict_by_keys
             (fun k => fold_left acc_update (group_of park k reviews)
                         new_entry) d) at 1.
  - rewrite map_map. reflexivity.
  - rewrite Hkeys. apply first_seen_NoDup.
  - intros k Hk. unfold d. rewrite summary_fold_as_group, group_get_empty.
    rewrite Hkeys in Hk. apply first_seen_In, in_map_iff in Hk.
    destruct Hk as [r [<- Hr]].
    destruct (group_of park (park r) reviews) as [|r' g] eqn:E;
      [|reflexivity].
    exfalso. assert (H : In r (group_of park (park r) reviews))
      by (apply group_of_In; tauto).
    now rewrite E in H.
Qed.

Lemma countries_count (g : list Review) :
  len (acc_countries (fold_left acc_update g new_entry))
  = len (first_seen (map location g)).
Proof.
  destruct (acc_fold_countries g new_entry) as [Hnd Hin];
    [constructor|].
  unfold len. f_equal. apply Permutation_length.
  apply NoDup_Permutation; [exact Hnd | apply first_seen_NoDup|].
  intros x. rewrite Hin, first_seen_In. cbn [acc_countries new_entry].
  unfold empty_set. simpl. tauto.
Qed.

(** X12. [park_summary] does not divide by zero: every entry has a count of
    at least 1. In the entry of a park, [reviews] is the number of records
    of exactly that park string, [positive] the number of them with a
    rating of 4 or more, and [countries] the number of their distinct
    location strings; the keys are the park strings in the order of their
    first record. *)
Theorem park_summary_fields (reviews : list Review) :
  exists summ,
    park_summary reviews = Ok summ
    /\ Dict.keys summ = first_seen (map park reviews)
    /\ forall k s, In (k, s) (Dict.items summ) ->
         let g := group_of park k reviews in
         1 <= len g
         /\ s_reviews s = len g
         /\ s_positive s = len (filter (fun r => 4 <=? rating r) g)
         /\ s_countries s = len (first_seen (map location g)).
Proof.
  destruct (park_summary reviews) as [summ|e] eqn:E;
    [|rewrite park_summary_ok in E; discriminate].
  exists summ. split; [reflexivity|].
  split; [now apply park_summary_keys|].
  intros k s Hin g. unfold Dict.items in Hin.
  destruct (park_summary_entry reviews summ k s E Hin) as [Hne ->].
  fold g in Hne |- *.
  split; [pose proof (len_pos g Hne); lia|].
  unfold finalized. cbn [s_reviews s_positive s_countries].
  rewrite acc_fold_reviews, acc_fold_positive, countries_count.
  cbn [acc_reviews acc_positive new_entry].
  repeat split; lia.
Qed.

Lemma sum_split_key (G : string -> Z) (k0 : string) (ks : list string) :
  NoDup ks -> (~ In k0 ks -> G k0 = 0) ->
  G k0 + sum (map G (filter (fun y => negb (String.eqb y k0)) ks))
  = sum (map G ks).
Proof.
  induction ks as [|a ks IH]; intros Hnd H0.
  - cbn [filter map]. rewrite H0 by tauto. reflexivity.
  - inversion Hnd as [|? ? Ha Hnd']; subst. cbn [filter map].
    destruct (String.eqb_spec a k0) as [->|Hne]; cbn [negb map].
    + rewrite sum_cons, filter_all_true_in; [reflexivity|].
      intros y Hy. apply negb_true_iff, String.eqb_neq. intros ->.
      contradiction.
    + rewrite !sum_cons, <- IH; [lia | exact Hnd'|].
      intros Hk. apply H0. intros [->|Hin]; [now apply Hne | contradiction].
Qed.

(** A count over a list is the sum of the counts over its groups. *)
Lemma count_over_groups {X : Type} (key : X -> string) (h : X -> bool)
    (l : list X) :
  sum (map (fun k => len (filter h (group_of key k l)))
         (first_seen (map key l)))
  = len (filter h l).
Proof.
  induction l as [|x l IH]; [reflexivity|].
  cbn [map first_seen]. rewrite sum_cons.
  assert (Hx : len (filter h (group_of key (key x) (x :: l)))
               = len (filter h (group_of key (key x) l))
                 + (if h x then 1 else 0)).
  { unfold group_of. cbn [filter]. rewrite String.eqb_refl. cbn [filter].
    destruct (h x); [apply len_cons | lia]. }
  rewrite Hx.
  assert (Hrest :
            map (fun k => len (filter h (group_of key k (x :: l))))
              (filter (fun y => negb (String.eqb y (key x)))
                 (first_seen (map key l)))
            = map (fun k => len (filter h (group_of key k l)))
                (filter (fun y => negb (String.eqb y (key x)))
                   (first_seen (map key l)))).
  { apply map_ext_in. intros k Hk. apply filter_In in Hk.
    destruct Hk as [_ Hk]. apply negb_true_iff in Hk.
    unfold group_of. cbn [filter].
    rewrite String.eqb_sym in Hk. now rewrite Hk. }
  rewrite Hrest.
  assert (Hs : len (filter h (group_of key (key x) l))
               + sum (map (fun k => len (filter h (group_of key k l)))
                        (filter (fun y => negb (String.eqb y (key x)))
                           (first_seen (map key l))))
               = len (filter h l)).
  { rewrite <- IH.
    apply (sum_split_key
             (fun k => len (filter h (group_of key k l))) (key x)
             (first_seen (map key l)) (first_seen_NoDup _)).
    intros Hnot. rewrite first_seen_In in Hnot.
    assert (Hg : group_of key (key x) l = []).
    { unfold group_of.
      destruct (filter (fun x0 => String.eqb (key x0) (key x)) l)
        as [|y g] eqn:E; [reflexivity|].
      exfalso. apply Hnot.
      assert (Hy : In y (filter (fun x0 => String.eqb (key x0) (key x)) l))
        by (rewrite E; now left).
      apply filter_In in Hy. destruct Hy as [Hy Hk].
      apply String.eqb_eq in Hk. rewrite <- Hk. now apply in_map. }
    now rewrite Hg. }
  cbn [filter]. destruct (h x); [rewrite len_cons|]; lia.
Qed.

(** X13. Nothing is lost or counted twice: over all parks the [reviews]
    fields add up to the number of records and the [positive] fields to the
    number of records with a rating of 4 or more. *)
Theorem park_summary_totals (reviews : list Review) :
  exists summ,
    park_summary reviews = Ok summ
    /\ sum (map s_reviews (Dict.values summ)) = len reviews
    /\ sum (map s_positive (Dict.values summ))
       = len (filter (fun r => 4 <=? rating r) reviews).
Proof.
  rewrite park_summary_by_keys. eexists. split; [reflexivity|].
  unfold Dict.values. rewrite !map_map. cbn [snd]. split.
  - rewrite <- (filter_all_true (fun _ => true) reviews) at 2
      by reflexivity.
    rewrite <- (count_over_groups park (fun _ => true) reviews).
    f_equal. apply map_ext. intros k.
    unfold finalized. cbn [s_reviews]. rewrite acc_fold_reviews.
    cbn [acc_reviews new_entry].
    now rewrite filter_all_true by reflexivity.
  - rewrite <- (count_over_groups park (fun r => 4 <=? rating r) reviews).
    f_equal. apply map_ext. intros k.
    unfold finalized. cbn [s_positive]. rewrite acc_fold_positive.
    reflexivity.
Qed.

(** ** The annual-average branch of [handle_view] *)

Lemma sum_lower (v : list Z) (lo : Z) :
  (forall x, In x v -> lo <= x) -> lo * len v <= sum v.
Proof.
  induction v as [|x v IH]; intros H.
  - unfold len, sum. simpl. lia.
  - rewrite sum_cons, len_cons.
    assert (Hx : lo <= x) by (apply H; now left).
    assert (Hv : lo * len v <= sum v)
      by (apply IH; intros y Hy; apply H; now right).
    lia.
Qed.

Lemma mean_truthy (v : list Z) :
  v <> [] -> (forall x, In x v -> 0 < x) -> truthy_float (mean v) = true.
Proof.
  intros Hne Hpos. unfold truthy_float. apply negb_true_iff.
  destruct (Qeq_bool (mean v) 0) eqn:E; [|reflexivity].
  apply Qeq_bool_iff in E. apply (mean_zero_iff v Hne) in E.
  pose proof (len_pos v Hne).
  assert (H1 : 1 * len v <= sum v).
  { apply sum_lower. intros x Hx. specialize (Hpos x Hx). lia. }
  lia.
Qed.

(** The engine result behind the message, for any input. *)
Lemma avg_rating_by_park_year_value (reviews : list Review) (p year : string) :
  avg_rating_by_park_year reviews p year
  = Ok (match map rating (filter (matchesb p year) reviews) with
        | [] => None
        | v => Some (mean v)
        end).
Proof.
  unfold avg_rating_by_park_year. fold (matchesb p year).
  destruct (map rating (filter (matchesb p year) reviews)) as [|x v] eqn:E;
    [reflexivity|].
  fold (mean_of (x :: v)). rewrite mean_of_eq by discriminate.
  reflexivity.
Qed.

(** X14. With ratings above zero, a park that is not empty and a year of
    four digits, the branch shows "No data." exactly when no record matches
    park and year, and otherwise the mean of the matching ratings. *)
Theorem view_annual_average_positive_ratings
    (reviews : list Review) (p year : string) :
  (forall r, In r reviews -> 0 < rating r) ->
  truthy_str p = true -> isdigit year = true -> String.length year = 4%nat ->
  let matching := filter (matchesb p year) reviews in
  (view_annual_average reviews p year = Msg "No data."
   <-> forall r, In r reviews -> ~ Matches p year r)
  /\ (matching <> [] ->
      view_annual_average reviews p year
      = Msg_average p year (mean (map rating matching))).
Proof.
  intros Hpos Hp Hd Hl matching.
  assert (Hyear : truthy_str year = true).
  { destruct year; [discriminate Hl | reflexivity]. }
  unfold view_annual_average.
  rewrite Hp, Hyear, Hd, Hl. cbn [negb orb Nat.eqb].
  rewrite avg_rating_by_park_year_value. fold matching.
  destruct matching as [|r0 l] eqn:E.
  - cbn [map average_message]. split; [|intros H; now contradiction H].
    split; [intros _|reflexivity].
    intros r Hr Hm. apply matchesb_spec in Hm.
    assert (Hin : In r (filter (matchesb p year) reviews))
      by (apply filter_In; tauto).
    fold matching in Hin. rewrite E in Hin. contradiction.
  - assert (Ht : truthy_float (mean (map rating (r0 :: l))) = true).
    { apply mean_truthy; [discriminate|].
      intros x Hx. apply in_map_iff in Hx. destruct Hx as [r [<- Hr]].
      apply Hpos. rewrite <- E in Hr. unfold matching in Hr.
      apply filter_In in Hr. tauto. }
    cbn [map] in Ht |- *. cbn [average_message]. rewrite Ht.
    split; [|reflexivity]. split; [discriminate|].
    intros Hnone. exfalso.
    assert (Hin : In r0 matching) by (rewrite E; now left).
    unfold matching in Hin. apply filter_In in Hin.
    destruct Hin as [Hr Hm]. apply matchesb_spec in Hm.
    exact (Hnone r0 Hr Hm).
Qed.

Lemma SAMPLE_positive (r : Review) : In r SAMPLE_REVIEWS -> 0 < rating r.
Proof.
  intros Hr. simpl in Hr.
  repeat (destruct Hr as [<-|Hr]; [simpl; lia|]). contradiction.
Qed.

Lemma view_annual_average_positive_ratings_witness :
  view_annual_average SAMPLE_REVIEWS "Disneyland Paris" "2019"
  = Msg_average "Disneyland Paris" "2019" (4 # 1).
Proof.
  apply (view_annual_average_positive_ratings SAMPLE_REVIEWS
           "Disneyland Paris" "2019" SAMPLE_positive);
    try reflexivity.
  discriminate.
Defined.

(** X15. The branch never shows the message of the [except] clause, and it
    shows an average only for a park that is not empty and a year of four
    digits, the average being the one the engine returned. *)
Theorem view_annual_average_outcomes
    (reviews : list Review) (p year : string) :
  (forall e, view_annual_average reviews p year <> Msg_error e)
  /\ (forall p' year' a,
        view_annual_average reviews p year = Msg_average p' year' a ->
        p' = p /\ year' = year
        /\ truthy_str p = true /\ isdigit year = true
        /\ String.length year = 4%nat
        /\ avg_rating_by_park_year reviews p year = Ok (Some a))
  /\ (view_annual_average reviews p year = Msg "Year must be in YYYY format."
      <-> truthy_str p = true /\ truthy_str year = true
          /\ (isdigit year = false \/ String.length year <> 4%nat)).
Proof.
  unfold view_annual_average.
  rewrite avg_rating_by_park_year_value.
  destruct (truthy_str p) eqn:Hp; cbn [negb orb];
    [|split; [discriminate|split; [discriminate|]];
      split; [discriminate | intros [H _]; discriminate H]].
  destruct (truthy_str year) eqn:Hy; cbn [negb orb];
    [|split; [discriminate|split; [discriminate|]];
      split; [discriminate | intros [_ [H _]]; discriminate H]].
  destruct (isdigit year) eqn:Hd; cbn [negb orb];
    [|split; [discriminate|split; [discriminate|]];
      split; [intros _; repeat split; now left | reflexivity]].
  destruct (Nat.eqb_spec (String.length year) 4) as [Hl|Hl]; cbn [negb];
    [|split; [discriminate|split; [discriminate|]];
      split; [intros _; repeat split; now right | reflexivity]].
  destruct (map rating (filter (matchesb p year) reviews)) as [|x v];
    cbn [average_message].
  - split; [discriminate|]. split; [discriminate|].
    split; [discriminate|].
    intros [_ [_ [H|H]]]; [discriminate | contradiction].
  - destruct (truthy_float (mean (x :: v))) eqn:Ht.
    + split; [discriminate|]. split.
      * intros p' year' a [= <- <- <-]. repeat split; assumption.
      * split; [discriminate|].
        intros [_ [_ [H|H]]]; [discriminate | contradiction].
    + split; [discriminate|]. split; [discriminate|].
      split; [discriminate|].
      intros [_ [_ [H|H]]]; [discriminate | contradiction].
Qed.

(** ** Two branches of [handle_graph] *)

(** X16. The monthly chart is drawn with its twelve bars when every record
    of the park has a period that splits in two; one record of the park with
    another period turns the whole chart into the message of the [except]
    clause, with [ValueError]. *)
Theorem graph_monthly_rating_outcomes (reviews : list Review) (p : string) :
  (truthy_str p = false ->
   graph_monthly_rating reviews p = Graph_msg "Park cannot be empty.")
  /\ (truthy_str p = true ->
      ((exists r, In r reviews /\ park_matches p r = true /\ ~ well_split r)
       -> graph_monthly_rating reviews p = Graph_error ValueError)
      /\ ((forall r, In r reviews -> park_matches p r = true -> well_split r)
          -> graph_monthly_rating reviews p
             = Bar_monthly_rating
                 (map (fun name => (name, month_value reviews p name))
                    month_names) p)).
Proof.
  unfold graph_monthly_rating. split.
  - intros ->. reflexivity.
  - intros ->. cbn [negb]. split.
    + intros [r [H1 [H2 H3]]].
      now rewrite (avg_monthly_rating_raises reviews p r H1 H2 H3).
    + intros Hall. now rewrite (avg_monthly_rating_well_split reviews p Hall).
Qed.

(** X17. For a park that is not empty the top-locations chart is always
    drawn: at most ten bars in descending order of the average, and no bar
    at all when no record matches the park. *)
Theorem graph_top_locations_chart (reviews : list Review) (p : string) :
  truthy_str p = true ->
  exists data,
    graph_top_locations reviews p = Bar_top_locations data p
    /\ len (Dict.items data) <= 10
    /\ StronglySorted (fun a b => snd b <= snd a)%Q (Dict.items data)
    /\ (get_reviews_by_park reviews p = [] -> data = Dict.empty).
Proof.
  intros Hp. unfold graph_top_locations. rewrite Hp. cbn [negb].
  rewrite top_locations_computed. eexists. split; [reflexivity|].
  unfold Dict.items, default_top. split; [apply slice_to_len; lia|].
  destruct (slice_to_firstn (sorted snd true (location_averages reviews p)) 10)
    as [m [Hm _]].
  rewrite Hm. split.
  - apply StronglySorted_firstn. apply (sorted_reverse_descending snd).
  - intros He. unfold location_averages. rewrite He. cbn [map first_seen].
    unfold sorted. cbn [rev stable_sort fold_right app]. apply firstn_nil.
Qed.

Lemma graph_top_locations_chart_witness :
  exists data,
    graph_top_locations SAMPLE_REVIEWS "Disneyland Paris"
    = Bar_top_locations data "Disneyland Paris"
    /\ len (Dict.items data) <= 10
    /\ StronglySorted (fun a b => snd b <= snd a)%Q (Dict.items data)
    /\ (get_reviews_by_park SAMPLE_REVIEWS "Disneyland Paris" = [] ->
        data = Dict.empty).
Proof.
  apply (graph_top_locations_chart SAMPLE_REVIEWS "Disneyland Paris").
  reflexivity.
Defined.

(** ** The text exporter *)

Lemma no_newline_app (a b : string) :
  no_newline (a ++ b) = no_newline a && no_newline b.
Proof.
  induction a as [|c a IH]; [reflexivity|].
  cbn [append no_newline]. now rewrite IH, andb_assoc.
Qed.

Lemma plain_no_newline (s : string) :
  Csv.needs_quotes s = false -> no_newline s = true.
Proof.
  induction s as [|c s IH]; [reflexivity|].
  cbn [Csv.needs_quotes no_newline]. intros H.
  apply orb_false_iff in H. destruct H as [Hc Hs].
  rewrite (IH Hs), andb_true_r.
  unfold Csv.special in Hc.
  repeat (apply orb_false_iff in Hc; destruct Hc as [Hc ?]).
  apply negb_true_iff. assumption.
Qed.

Lemma split_line (a rest : string) :
  no_newline a = true ->
  split Csv.LF (a ++ String Csv.LF rest) = a :: split Csv.LF rest.
Proof.
  induction a as [|c a IH]; intros H.
  - reflexivity.
  - cbn [no_newline] in H. apply andb_true_iff in H. destruct H as [Hc Ha].
    apply negb_true_iff in Hc.
    cbn [append split]. rewrite Hc, (IH Ha). reflexivity.
Qed.

Lemma split_unlines (ls : list string) :
  Forall (fun l => no_newline l = true) ls ->
  split Csv.LF (unlines ls) = (ls ++ [EmptyString])%list.
Proof.
  induction 1 as [|l ls Hl Hls IH]; [reflexivity|].
  cbn [unlines fold_right]. fold (unlines ls).
  unfold TxtExporter.newline. cbn [append].
  rewrite (split_line l _ Hl), IH. reflexivity.
Qed.

Lemma unlines_app (ls ls' : list string) :
  unlines (ls ++ ls') = (unlines ls ++ unlines ls')%string.
Proof.
  induction ls as [|l ls IH]; [reflexivity|].
  cbn [app unlines fold_right]. fold (unlines (ls ++ ls')) (unlines ls).
  now rewrite IH, !append_assoc.
Qed.

(** The exported text is the text of the blocks of the parks, in the
    order of the map. *)
Lemma txt_export_unlines (summary : Dict.t Summary) :
  TxtExporter.export summary = unlines (List.concat (map txt_block summary)).
Proof.
  unfold TxtExporter.export, Dict.items.
  assert (H : forall fp,
             fold_left
               (fun fp kv =>
                  let fp := (fp ++ fst kv ++ TxtExporter.newline)%string in
                  let fp :=
                    fold_left
                      (fun fp kv' =>
                         (fp ++ "  " ++ fst kv' ++ ": " ++ Csv.str (snd kv')
                          ++ TxtExporter.newline)%string)
                      (TxtExporter.items (snd kv)) fp in
                  (fp ++ TxtExporter.newline)%string)
               summary fp
             = (fp ++ unlines (List.concat (map txt_block summary)))%string).
  { induction summary as [|kv summary IH]; intros fp.
    - cbn. now rewrite append_nil_r.
    - cbn [fold_left map List.concat]. rewrite IH, unlines_app.
      rewrite <- (append_assoc fp (unlines (txt_block kv))). f_equal.
      unfold TxtExporter.items, txt_block.
      cbn [fold_left fst snd Csv.str unlines fold_right].
      rewrite !append_assoc. reflexivity. }
  rewrite H. reflexivity.
Qed.

(** X18. When no park string holds a line feed, the lines of the exported
    text are, park after park in the order of the map, the park string, the
    four indented lines of its fields in the order reviews, positive, avg,
    countries, and an empty line; the text ends with a line feed. *)
Theorem txt_export_lines (summary : Dict.t Summary) :
  (forall k s, In (k, s) (Dict.items summary) -> no_newline k = true) ->
  split Csv.LF (TxtExporter.export summary)
  = (List.concat (map txt_block summary) ++ [EmptyString])%list.
Proof.
  intros Hk. rewrite txt_export_unlines. apply split_unlines.
  apply Forall_concat. apply Forall_map. apply Forall_forall.
  intros [k s] Hin. unfold txt_block. cbn [fst snd].
  repeat constructor.
  - exact (Hk k s Hin).
  - rewrite no_newline_app. apply plain_no_newline, str_int_plain.
  - rewrite no_newline_app. apply plain_no_newline, str_int_plain.
  - rewrite no_newline_app. apply plain_no_newline, repr_float_plain.
  - rewrite no_newline_app. apply plain_no_newline, str_int_plain.
Qed.

Lemma txt_export_lines_witness :
  split Csv.LF
    (TxtExporter.export [("Disneyland Paris", mkSummary 3 2 (4 # 1) 3)])
  = ["Disneyland Paris"; "  reviews: 3"; "  positive: 2"; "  avg: 4.0";
     "  countries: 3"; EmptyString; EmptyString].
Proof.
  apply (txt_export_lines [("Disneyland Paris", mkSummary 3 2 (4 # 1) 3)]).
  intros k s [[= <- <-]|[]]. reflexivity.
Defined.
